(* Fusion rings of Drinfeld doubles, subcrystals, compositions modulo m,
   Drinfeld modular forms and finite Drinfeld modules: the methods of the
   Sage sources as functions, and what they guarantee. *)

From Stdlib Require Import String.
From HB Require Import structures.
From mathcomp Require Import boot order algebra finite_group solvable.
From mathcomp Require Import field group_representation.

Set Implicit Arguments.
Unset Strict Implicit.
Unset Printing Implicit Defensive.

Import Order.Theory GRing.Theory Num.Def Num.Theory.
Local Open Scope ring_scope.

(* ------------------------------------------------------------------------ *)
(* Python values shared by the modules below                                 *)
(* ------------------------------------------------------------------------ *)

Module Py.

(* Python exceptions, by class, with the message they carry. *)
Inductive exn :=
  | ValueError of string
  | TypeError of string
  | AttributeError of string
  | NotImplementedError of string
  | OtherError of string.

(* What a call does: it returns a value or raises. *)
Inductive result (T : Type) := Ok of T | Raise of exn.
Arguments Ok {T} _.
Arguments Raise {T} _.

Definition bind {A B : Type} (x : result A) (f : A -> result B) : result B :=
  match x with Ok a => f a | Raise e => Raise e end.

Definition succeeds {T : Type} (x : result T) : bool :=
  if x is Ok _ then true else false.

(* range(lo, hi) *)
Definition range (lo hi : int) : seq int :=
  if hi - lo is Posz k then [seq lo + j%:Z | j <- iota 0 k] else [::].

(* l[k] *)
Definition getitem (T : Type) (l : seq T) (k : int) : result T :=
  let k' := if k < 0 then k + (size l)%:Z else k in
  if (0 <= k') && (k' < (size l)%:Z)
  then (if drop `|k'| l is x :: _ then Ok x
        else Raise (OtherError "IndexError: list index out of range"))
  else Raise (OtherError "IndexError: list index out of range").

End Py.

Import Py.

(* ------------------------------------------------------------------------ *)
(* sage/algebras/fusion_rings/fusion_double.py                               *)
(* ------------------------------------------------------------------------ *)

Module FusionDouble.

(* A power of the generator of CyclotomicField(m): the root of unity gen^k,
   kept as the order m of the field and the exponent k reduced modulo m. *)
Record cyclotomic_root := CyclotomicRoot { conductor : nat; exponent_of : nat }.

Definition CyclotomicField_gen (m : nat) : cyclotomic_root :=
  CyclotomicRoot m (1 %% m).

(* z ** n *)
Definition root_pow (z : cyclotomic_root) (n : int) : cyclotomic_root :=
  CyclotomicRoot (conductor z)
    `|((exponent_of z)%:Z * n %% (conductor z)%:Z)%Z|.

(* The generator of CyclotomicField(m) is e^{2 i pi / m}, so gen^k is
   e^{i pi t} for t = 2 k / m. *)
Definition angle (z : cyclotomic_root) : rat :=
  2%:Q * (exponent_of z)%:Q / (conductor z)%:Q.

(* The coercion into the field of the F-matrix, as it acts on the two kinds of
   values the methods return. *)
Record coercion := Coercion {
  coerce_value : algC -> algC;
  coerce_root : cyclotomic_root -> cyclotomic_root
}.

(* The cyclic group of order two, with its two elements as representatives of
   its conjugacy classes. *)
Definition C2 : {group 'Z_2} := [set: 'Z_2]%G.
Definition C2_reps : seq 'Z_2 := [:: 1%g; Zp1].

Section Fusion.

Variable gT : finGroupType.

(* One key of the dictionaries _elt and _chi: a representative of a conjugacy
   class and an irreducible character of its centralizer, the character as the
   callable the code applies to group elements. *)
Record simple_object := SimpleObject { g_of : gT; chi_of : gT -> algC }.

(* The keys are 0, ..., _rank - 1; the k-th simple object of the basis is the
   monomial of support k, and the methods take it as k. *)
Record fusion_double := Build {
  _G : {group gT};
  _basis : seq simple_object;
  _rank : nat;
  _cyclotomic_order : nat;
  _basecoer : option coercion
}.

(* G.centralizer(g) *)
Definition centralizer (G : {group gT}) (g : gT) : {group gT} := 'C_G[g]%G.

(* H.irreducible_characters(), the principal character first. *)
Definition irreducible_characters (H : {group gT}) : seq (gT -> algC) :=
  map (fun c : 'CF(H) => (c : gT -> algC)) (irr H).

(* __init__; reps is the answer of G.conjugacy_classes_representatives(). *)
Definition init (G : {group gT}) (reps : seq gT) : fusion_double :=
  let basis :=
    flatten [seq [seq SimpleObject g c
                 | c <- irreducible_characters (centralizer G g)]
            | g <- reps] in
  {| _G := G; _basis := basis; _rank := size basis;
     _cyclotomic_order := exponent G; _basecoer := None |}.

(* The contract of G.conjugacy_classes_representatives(): one element of each
   conjugacy class of G, the identity first. *)
Definition class_representatives (G : {group gT}) (reps : seq gT) : bool :=
  (head 1%g reps == 1%g)
  && perm_eq [seq (x ^: G)%g | x <- reps] (enum (classes G)).

(* What a dictionary lookup gives outside the keys, where Python raises. *)
Definition no_object : simple_object := SimpleObject 1%g (fun=> 0).

Definition _elt (H : fusion_double) (k : nat) : gT :=
  g_of (nth no_object (_basis H) k).

Definition _chi (H : fusion_double) (k : nat) : gT -> algC :=
  chi_of (nth no_object (_basis H) k).

(* if (not base_coercion) or (self._basecoer is None): return ret
   return self._basecoer(ret) *)
Definition coerce (H : fusion_double) (base_coercion : bool) (ret : algC) :
    algC :=
  if ~~ base_coercion || ~~ isSome (_basecoer H) then ret
  else if _basecoer H is Some c then coerce_value c ret else ret.

Definition s_ij (H : fusion_double) (i j : nat)
    (unitary base_coercion : bool) : algC :=
  let G := _G H in
  let: (a, chi_1) := (_elt H i, _chi H i) in
  let: (b, chi_2) := (_elt H j, _chi H j) in
  let sum :=
    \sum_(g in G | (a * g * b * g^-1 == g * b * g^-1 * a)%g)
       chi_1 (g * b * g^-1)%g * chi_2 (g^-1 * a * g)%g in
  let coef :=
    if unitary
    then 1 / (#|centralizer G a| * #|centralizer G b|)%:R
    else #|G|%:R / (#|centralizer G a| * #|centralizer G b|)%:R in
  let ret := coef * sum in
  coerce H base_coercion ret.

Definition total_q_order (H : fusion_double) (base_coercion : bool) : algC :=
  let ret := #|_G H|%:R in
  coerce H base_coercion ret.

Definition global_q_dimension (H : fusion_double) (base_coercion : bool) :
    algC :=
  let ret := (#|_G H| ^ 2)%:R in
  coerce H base_coercion ret.

(* self.basis()[0] *)
Definition one : nat := 0.

(* Element.q_dimension, of a simple object *)
Definition q_dimension (H : fusion_double) (k : nat) : algC :=
  s_ij H k one false true.

(* get_order() is the list of the keys, so row y and column x are the keys y
   and x. *)
Definition s_matrix (H : fusion_double) (unitary base_coercion : bool) :
    'M[algC]_(_rank H) :=
  let S := \matrix_(y, x) s_ij H x y unitary base_coercion in
  if unitary then (total_q_order H true)^-1 *: S else S.

(* CyclotomicField(4 * self._cyclotomic_order), by its order *)
Definition field (H : fusion_double) : nat := 4 * _cyclotomic_order H.

(* n not in ZZ, for the rational n, is: the denominator of n is not one. *)
Definition root_of_unity (H : fusion_double) (r : rat) (base_coercion : bool) :
    result cyclotomic_root :=
  let n := 2%:Q * r * (_cyclotomic_order H)%:Q in
  if n \isn't a Num.int
  then Raise (ValueError "not a root of unity in the field")
  else
    let ret := root_pow (CyclotomicField_gen (field H)) (numq n) in
    if ~~ base_coercion || ~~ isSome (_basecoer H) then Ok ret
    else if _basecoer H is Some c then Ok (coerce_root c ret) else Ok ret.

(* ZZ(x), for x in a cyclotomic field: the integer x is, or a TypeError. *)
Definition ZZ (x : algC) : result int :=
  if x \is a Num.int then Ok (Num.floor x)
  else Raise (TypeError "Unable to coerce to an integer").

(* The sum of the Verlinde formula; the division by s_ij(sz, r) raises when
   that entry is zero. *)
Definition N_ijk (H : fusion_double) (i j k : nat) : result int :=
  let sz := one in
  if [exists r : 'I_(_rank H), s_ij H sz r true true == 0]
  then Raise (OtherError "ZeroDivisionError")
  else ZZ (\sum_(r < _rank H)
             s_ij H i r true true * s_ij H j r true true
             * s_ij H k r true true / s_ij H sz r true true).

(* for j in self.basis(): if self.N_ijk(i, j, sz) > 0: return j
   and None when the loop ends. *)
Definition dual (H : fusion_double) (i : nat) : result (option nat) :=
  let sz := one in
  foldr (fun j rest =>
           bind (N_ijk H i j sz)
             (fun n => if 0 < n then Ok (Some j) else rest))
        (Ok None) (iota 0 (_rank H)).

(* N_ijk(i, j, None) fails at None.support_of_term(). *)
Definition Nk_ij (H : fusion_double) (i j k : nat) : result int :=
  bind (dual H k)
    (fun d => if d is Some k' then N_ijk H i j k'
              else Raise (AttributeError
                     "'NoneType' object has no attribute 'support_of_term'")).

(* d = {k: N_ijk(a, b, dual(k)) for k in basis()}: the coefficients of the
   product of two basis elements, listed by key; the first exception of the
   comprehension ends it. *)
Definition product_on_basis (H : fusion_double) (a b : nat) :
    result (seq int) :=
  foldr (fun k rest =>
           bind (Nk_ij H a b k) (fun n =>
             bind rest (fun d => Ok (n :: d))))
        (Ok [::]) (iota 0 (_rank H)).

(* self.monomial(b), by its coefficients *)
Definition monomial (H : fusion_double) (b : nat) : seq int :=
  [seq Posz (k == b) | k <- iota 0 (_rank H)].

(* D_plus() and D_minus() *)
Definition D_plus (H : fusion_double) (base_coercion : bool) : algC :=
  let ret := #|_G H|%:R in
  coerce H base_coercion ret.

Definition D_minus (H : fusion_double) (base_coercion : bool) : algC :=
  let ret := #|_G H|%:R in
  coerce H base_coercion ret.

(* Element.ribbon, of a simple object: chi(g) / chi(G.one()); the division
   raises when chi(G.one()) is zero. *)
Definition ribbon (H : fusion_double) (k : nat) (base_coercion : bool) :
    result algC :=
  if _chi H k 1%g == 0 then Raise (OtherError "ZeroDivisionError")
  else
    let ret := _chi H k (_elt H k) / _chi H k 1%g in
    Ok (coerce H base_coercion ret).

(* The complex number a power of the generator of the field is, zeta being
   the generator. *)
Definition root_value (zeta : algC) (z : cyclotomic_root) : algC :=
  zeta ^+ exponent_of z.

(* Element.twist, of a simple object, zeta being the complex number
   field().gen(); the loop returns at the first k with zeta**k == rib, and
   the method returns None when the loop ends. *)
Definition Element_twist (H : fusion_double) (zeta : algC) (x : nat) :
    result (option rat) :=
  bind (ribbon H x true) (fun rib =>
    Ok (foldr (fun k rest =>
                 if root_value zeta
                      (root_pow (CyclotomicField_gen (field H)) k%:Z) == rib
                 then Some (k%:Q / (2 * _cyclotomic_order H)%N%:Q)
                 else rest)
              None (iota 0 (4 * _cyclotomic_order H)%N))).

(* for i, j, k in basis(): if N_ijk(i, j, k) > 1: return False
   and True when the loops end. *)
Definition is_multiplicity_free (H : fusion_double) : result bool :=
  let B := iota 0 (_rank H) in
  foldr (fun i rest_i =>
    foldr (fun j rest_j =>
      foldr (fun k rest_k =>
               bind (N_ijk H i j k)
                 (fun n => if 1 < n then Ok false else rest_k))
            rest_j B)
      rest_i B)
    (Ok true) B.

(* x / y, which raises when y is zero *)
Definition divide (x y : algC) : result algC :=
  if y == 0 then Raise (OtherError "ZeroDivisionError") else Ok (x / y).

(* sum(...) of a generator: the terms are added in turn, up to the first one
   that raises. *)
Definition sum_results (terms : seq (result algC)) : result algC :=
  foldl (fun acc t => bind acc (fun a => bind t (fun v => Ok (a + v))))
        (Ok 0) terms.

(* One term of the sum of r_matrix for i == j. *)
Definition r_matrix_term (H : fusion_double) (i k x y z : nat) :
    result algC :=
  let i0 := one in
  bind (ribbon H y true) (fun y_ribbon =>
  bind (ribbon H i true) (fun i_ribbon =>
  bind (ribbon H x true) (fun x_ribbon =>
  bind (divide (y_ribbon ^+ 2) (i_ribbon * x_ribbon ^+ 2)) (fun t =>
    divide (t * s_ij H i0 y false true * s_ij H i z false true
            * (s_ij H x z false true)^* * (s_ij H k x false true)^*
            * (s_ij H y z false true)^*)
           (s_ij H i0 z false true))))).

(* r_matrix, on simple objects, zeta being the complex number field().gen();
   the values in the field are taken as complex numbers.  The zero of
   fvars_field() is that of the field of the F-matrix, which exists for a
   multiplicity free ring. *)
Definition r_matrix (H : fusion_double) (zeta : algC) (i j k : nat)
    (base_coercion : bool) : result algC :=
  bind (Nk_ij H i j k) (fun n =>
    if n == 0 then
      if ~~ base_coercion || ~~ isSome (_basecoer H) then Ok 0
      else bind (is_multiplicity_free H) (fun mf =>
             if mf then Ok 0
             else Raise (NotImplementedError
               "method is only available for multiplicity free fusion rings"))
    else if i != j then
      bind (Element_twist H zeta k) (fun k_twist =>
      bind (Element_twist H zeta i) (fun i_twist =>
      bind (Element_twist H zeta j) (fun j_twist =>
        match k_twist, i_twist, j_twist with
        | Some tk, Some ti, Some tj =>
            bind (root_of_unity H ((tk - ti - tj) / 2%:Q) true) (fun ret =>
              if ~~ base_coercion || ~~ isSome (_basecoer H)
              then Ok (root_value zeta ret)
              else if _basecoer H is Some c
                   then Ok (root_value zeta (coerce_root c ret))
                   else Ok (root_value zeta ret))
        | _, _, _ =>
            Raise (TypeError "unsupported operand type(s) for -")
        end)))
    else
      let B := iota 0 (_rank H) in
      bind (sum_results
              (flatten [seq [seq r_matrix_term H i k x y z | y <- B, z <- B]
                       | x <- B])) (fun s =>
        bind (divide s (total_q_order H true ^+ 4)) (fun ret =>
          Ok (coerce H base_coercion ret)))).

(* G.conjugacy_class(g) *)
Definition conjugacy_class (G : {group gT}) (g : gT) : {set gT} := (g ^: G)%g.

(* for g in G: if g.inverse() * a * g == h: twist = g
   leaves in twist the last such g; there is one when h is conjugate to a. *)
Definition twist (G : {group gT}) (a h : gT) : gT :=
  last 1%g [seq g <- enum G | (g^-1 * a * g == h)%g].

Definition char_Nk_ij (H : fusion_double) (i j k : nat) : algC :=
  let G := _G H in
  let I := conjugacy_class G (_elt H i) in
  let J := conjugacy_class G (_elt H j) in
  let IJ := [set (I_elem * J_elem)%g | I_elem in I, J_elem in J] in
  if _elt H k \notin IJ then 0 else
  let K := conjugacy_class G (_elt H k) in
  let CI := centralizer G (_elt H i) in
  let CJ := centralizer G (_elt H j) in
  let CK := centralizer G (_elt H k) in
  let c := #|K|%:R / #|G|%:R in
  let res :=
    \sum_(p in setX I J | (p.1 * p.2 == _elt H k)%g)
      let: (I_elem, J_elem) := p in
      let i_twist := twist G (_elt H i) I_elem in
      let j_twist := twist G (_elt H j) J_elem in
      let A := [set (i_twist^-1 * zi * i_twist)%g | zi in CI] in
      let B := [set (j_twist^-1 * zj * j_twist)%g | zj in CJ] in
      \sum_(x in A :&: B :&: CK)
         _chi H i (i_twist * x * i_twist^-1)%g
         * _chi H j (j_twist * x * j_twist^-1)%g * (_chi H k x)^* in
  c * res.

(* The number s_ij computes from two entries of the dictionaries. *)
Definition s_val (G : {group gT}) (x y : simple_object) (unitary : bool) :
    algC :=
  (if unitary
   then 1 / (#|centralizer G (g_of x)| * #|centralizer G (g_of y)|)%:R
   else #|G|%:R / (#|centralizer G (g_of x)| * #|centralizer G (g_of y)|)%:R)
  * \sum_(g in G | (g_of x * g * g_of y * g^-1 == g * g_of y * g^-1 * g_of x)%g)
       chi_of x (g * g_of y * g^-1)%g * chi_of y (g^-1 * g_of x * g)%g.

(* The number char_Nk_ij computes from three entries of the dictionaries. *)
Definition char_val (G : {group gT}) (x y z : simple_object) : algC :=
  let I := conjugacy_class G (g_of x) in
  let J := conjugacy_class G (g_of y) in
  let IJ := [set (I_elem * J_elem)%g | I_elem in I, J_elem in J] in
  if g_of z \notin IJ then 0 else
  let K := conjugacy_class G (g_of z) in
  let CI := centralizer G (g_of x) in
  let CJ := centralizer G (g_of y) in
  let CK := centralizer G (g_of z) in
  let c := #|K|%:R / #|G|%:R in
  let res :=
    \sum_(p in setX I J | (p.1 * p.2 == g_of z)%g)
      let: (I_elem, J_elem) := p in
      let i_twist := twist G (g_of x) I_elem in
      let j_twist := twist G (g_of y) J_elem in
      let A := [set (i_twist^-1 * zi * i_twist)%g | zi in CI] in
      let B := [set (j_twist^-1 * zj * j_twist)%g | zj in CJ] in
      \sum_(x0 in A :&: B :&: CK)
         chi_of x (i_twist * x0 * i_twist^-1)%g
         * chi_of y (j_twist * x0 * j_twist^-1)%g * (chi_of z x0)^* in
  c * res.

Section Facts.

Variables (G : {group gT}) (reps : seq gT).
Hypothesis repsP : class_representatives G reps.

Let H := init G reps.

(* The character chi of the centralizer of a, carried to the centralizers of
   the conjugates of a: at x = a ^ g it is y |-> chi (y ^ g^-1), for any such
   g; it is 0 when x is not conjugate to a. *)
Definition twisted (a : gT) (chi : gT -> algC) (x y : gT) : algC :=
  #|'C_G[a]%g|%:R^-1 * \sum_(g in G | (a ^ g == x)%g) chi (y ^ g^-1)%g.

(* The normalised sum over the pairs of elements of G. *)
Definition pair_sum (Phi : gT -> gT -> algC) : algC :=
  #|G|%:R^-1 * \sum_(x in G) \sum_(y in G) Phi x y.

Definition invariant (Phi : gT -> gT -> algC) : Prop :=
  forall x y g, g \in G -> Phi (x ^ g)%g (y ^ g)%g = Phi x y.

Definition pair_dot (Phi Psi : gT -> gT -> algC) : algC :=
  pair_sum (fun x y => Phi x y * (Psi x y)^*).

(* Phi vanishes at the pairs of elements of G that do not commute. *)
Definition commuting_support (Phi : gT -> gT -> algC) : Prop :=
  forall x y, x \in G -> y \in G -> y \notin 'C[x]%g -> Phi x y = 0.

(* The carried character read at (q^-1, p): the entries of the S-matrix are
   the coefficients of these functions along the carried characters. *)
Definition cotwisted (a : gT) (chi : gT -> algC) (p q : gT) : algC :=
  twisted a chi q^-1%g p.

(* The value at the products of two class functions against a third, in the
   coordinates along the irreducible characters. *)
Definition conv3 (K : {group gT}) (f f' g : gT -> algC) : algC :=
  #|K|%:R^-1 * \sum_(y in K) \sum_(y' in K) f y * f' y' * (g (y * y')%g)^*.

(* The products of three carried characters, summed over the factorisations
   z = y * (y^-1 * z). *)
Definition triple (a1 a2 a3 : gT) (chi1 chi2 chi3 : gT -> algC) (z x : gT) :
    algC :=
  \sum_(y in G) twisted a1 chi1 y x * twisted a2 chi2 (y^-1 * z)%g x
                * (twisted a3 chi3 z x)^*.

(* The sum of the Verlinde formula is the sum of the character-theoretic
   formula. *)
Definition char_sum (a1 a2 a3 : gT) (chi1 chi2 chi3 : gT -> algC) : algC :=
  #|'C_G[a3]%g|%:R^-1
  * \sum_(x in G) \sum_(y in G)
       twisted a1 chi1 y x * twisted a2 chi2 (y^-1 * a3)%g x * (chi3 x)^*.

(* The keys of the basis: a representative and the index of an irreducible
   character of its centralizer. *)
Definition key : Type := {a : gT & Iirr 'C_G[a]}.

Definition key_object (p : key) : simple_object :=
  SimpleObject (tag p) 'chi_(tagged p).

Definition keys : seq key :=
  [seq Tagged (fun a => Iirr 'C_G[a]) i
  | a <- reps, i <- enum (Iirr 'C_G[a])].

Definition key_one : key := Tagged (fun a => Iirr 'C_G[a]) (0 : Iirr 'C_G[1]).

Lemma reps_head : exists reps', reps = 1%g :: reps'.
Proof.
case/andP: repsP => /eqP h1 /perm_size; rewrite size_map.
case: reps h1 => [|x r] /= h1 sz; last by exists r; rewrite h1.
by have := classes1 G; rewrite -mem_enum; case: (enum _) sz.
Qed.

Lemma reps_in_G a : a \in reps -> a \in G.
Proof.
case/andP: repsP => _ /perm_mem pm ain.
have: (a ^: G)%g \in classes G by rewrite -mem_enum -pm; apply: map_f.
case/imsetP => x xG eq_ax; have := class_refl G a.
by rewrite eq_ax; case/imsetP=> y yG ->; rewrite groupJ.
Qed.

(* The class equation, over the representatives. *)
Lemma class_equation : \sum_(a <- reps) #|(a ^: G)%g| = #|G|.
Proof.
case/andP: repsP => _ pm.
rewrite -(big_map (fun a => (a ^: G)%g) xpredT (fun C => #|C|)).
rewrite (perm_big _ pm) /= big_enum /= -[RHS]class_formula.
apply: eq_bigr => C /repr_classesP [_ {1}->].
by rewrite index_cent1.
Qed.

(* A sum over the basis, class by class and character by character. *)
Lemma big_basis (F : simple_object -> algC) :
  \sum_(k < _rank H) F (nth no_object (_basis H) k)
  = \sum_(a <- reps) \sum_(i < Nirr 'C_G[a]) F (SimpleObject a 'chi_i).
Proof.
rewrite /= -(big_mkord xpredT (fun k => F (nth _ _ k))) -(big_nth _ xpredT F).
rewrite big_flatten big_map; apply: eq_bigr => a _.
rewrite /irreducible_characters !big_map big_tuple.
by apply: eq_bigr => i _.
Qed.

Lemma basis_one :
  nth no_object (_basis H) one = SimpleObject 1%g 'chi['C_G[1]]_0.
Proof.
case: reps_head => r eq_reps; rewrite /H /init /= eq_reps /=.
by rewrite /irreducible_characters (tuple_eta (irr _)).
Qed.

Lemma rank_gt0 : (0 < _rank H)%N.
Proof.
case: reps_head => r eq_reps; rewrite /H /init /= eq_reps /=.
by rewrite /irreducible_characters (tuple_eta (irr _)).
Qed.

Lemma s_ijE i j u b :
  s_ij H i j u b
  = s_val G (nth no_object (_basis H) i) (nth no_object (_basis H) j) u.
Proof. by rewrite /s_ij /coerce /= orbT. Qed.

Lemma cent_one : centralizer G 1 = G :> {set gT}.
Proof. by rewrite /= cent11T; apply/setIidPl; apply: subsetT. Qed.

(* The entries of the row and of the column of the unit object. *)
Lemma s_val_one a (i : Iirr 'C_G[a]) u : a \in G ->
  s_val G (SimpleObject a 'chi_i) (SimpleObject 1%g 'chi['C_G[1]]_0) u
  = (if u then 1 else #|G|%:R) * 'chi_i 1%g / #|'C_G[a]%g|%:R.
Proof.
move=> aG; rewrite /s_val /= cent_one.
rewrite (eq_bigl (mem G)) => [g|].
  by rewrite !mulg1 mulgK mulgV mul1g eqxx andbT.
rewrite (eq_bigr (fun=> 'chi_i 1%g)) => [g gG|].
  by rewrite mulg1 mulgV irr0 cfun1E !groupM ?groupV // mulr1.
rewrite sumr_const -[_ *+ _]mulr_natr.
have nzG := neq0CG G; have nzC := neq0CG 'C_G[a]%g.
by rewrite natrM; case: u; field; rewrite nzG nzC.
Qed.

Lemma s_one_val a (i : Iirr 'C_G[a]) u : a \in G ->
  s_val G (SimpleObject 1%g 'chi['C_G[1]]_0) (SimpleObject a 'chi_i) u
  = (if u then 1 else #|G|%:R) * 'chi_i 1%g / #|'C_G[a]%g|%:R.
Proof.
move=> aG; rewrite /s_val /= cent_one.
rewrite (eq_bigl (mem G)) => [g|].
  by rewrite !mul1g mulg1 eqxx andbT.
rewrite (eq_bigr (fun=> 'chi_i 1%g)) => [g gG|].
  by rewrite mulg1 mulVg irr0 cfun1E !groupM ?groupV // mul1r.
rewrite sumr_const -[_ *+ _]mulr_natr.
have nzG := neq0CG G; have nzC := neq0CG 'C_G[a]%g.
by rewrite natrM; case: u; field; rewrite nzG nzC.
Qed.

Lemma card_class_cent a : a \in G -> (#|'C_G[a]%g| * #|(a ^: G)%g|)%N = #|G|.
Proof. by move=> aG; rewrite -index_cent1 Lagrange ?subsetIl. Qed.

(* The squares of the degrees of the characters of a centralizer add up to
   its order, and the classes to the group. *)
Lemma sum_degree_square :
  \sum_(a <- reps) \sum_(i < Nirr 'C_G[a])
     ('chi_i 1%g / #|'C_G[a]%g|%:R) ^+ 2 = 1 :> algC.
Proof.
have nzG := neq0CG G.
rewrite -[RHS](divff nzG) -{1}class_equation natr_sum mulr_suml.
rewrite big_seq [RHS]big_seq; apply: eq_bigr => a /reps_in_G aG.
have nzC := neq0CG 'C_G[a]%g.
rewrite -(card_class_cent aG) natrM.
rewrite (eq_bigr (fun i : Iirr 'C_G[a] =>
           ('chi_i 1%g) ^+ 2 * (#|'C_G[a]%g|%:R ^- 2))) => [i _|].
  by rewrite expr_div_n.
rewrite -mulr_suml irr_sum_square.
have nzK : #|(a ^: G)%g|%:R != 0 :> algC.
  by rewrite pnatr_eq0 -lt0n; apply/card_gt0P; exists a; apply: class_refl.
by field; rewrite nzC nzK.
Qed.

Lemma q_dimension_sum :
  \sum_(k < _rank H) (q_dimension H k) ^+ 2 = #|G|%:R ^+ 2.
Proof.
pose F x := (s_val G x (SimpleObject 1%g 'chi['C_G[1]]_0) false) ^+ 2.
rewrite (eq_bigr (fun k : 'I_(_rank H) => F (nth no_object (_basis H) k)))
  => [k _|].
  by rewrite /q_dimension s_ijE basis_one.
rewrite (big_basis F) /F -[RHS]mulr1 -[X in _ = _ * X]sum_degree_square.
rewrite mulr_sumr big_seq [RHS]big_seq; apply: eq_bigr => a /reps_in_G aG.
rewrite mulr_sumr; apply: eq_bigr => i _.
by rewrite s_val_one // -mulrA exprMn.
Qed.

(* The entry of the unit object of s_matrix(unitary=True) times its
   conjugate. *)
Lemma s_matrix_unitary_00 (k0 : 'I_(_rank H)) : k0 = 0%N :> nat ->
  (s_matrix H true true *m map_mx conjC (s_matrix H true true)) k0 k0
  = #|G|%:R ^- 2.
Proof.
move=> k00; rewrite mxE.
pose F x := #|G|%:R ^- 2 *
      (s_val G x (SimpleObject 1%g 'chi['C_G[1]]_0) true
       * (s_val G (SimpleObject 1%g 'chi['C_G[1]]_0) x true)^*).
rewrite (eq_bigr (fun k : 'I_(_rank H) => F (nth no_object (_basis H) k)))
  => [k _|].
  rewrite /s_matrix /total_q_order /coerce /= !mxE !s_ijE k00 basis_one.
  rewrite rmorphM /= fmorphV /= conjC_nat.
  by rewrite mulrACA -invfM -expr2.
rewrite (big_basis F) /F -[RHS]mulr1 -[X in _ = _ * X]sum_degree_square.
rewrite mulr_sumr big_seq [RHS]big_seq; apply: eq_bigr => a /reps_in_G aG.
rewrite mulr_sumr; apply: eq_bigr => i _.
rewrite s_val_one // s_one_val // !mul1r rmorphM /= fmorphV /= conjC_nat.
by rewrite (conj_natr (Cnat_irr1 i)) expr2.
Qed.


(* For every group with more than one element s_matrix(unitary=True) is not
   unitary: its entries are those of s_ij(unitary=True), which already are
   those of the unitary S-matrix, divided once more by the order of G. *)
Theorem s_matrix_not_unitary : (1 < #|G|)%N ->
  s_matrix H true true *m map_mx conjC (s_matrix H true true) != 1%:M.
Proof.
move=> G_gt1; apply/eqP => /matrixP /(_ (Ordinal rank_gt0) (Ordinal rank_gt0)).
rewrite s_matrix_unitary_00 // mxE eqxx /= => /eqP.
rewrite invr_eq1 expr2 -natrM pnatr_eq1 => /eqP eqG1.
by have := ltn_mul G_gt1 G_gt1; rewrite eqG1.
Qed.

Lemma twistedJ a chi x y g : g \in G ->
  twisted a chi (x ^ g) (y ^ g) = twisted a chi x y.
Proof.
move=> gG; rewrite /twisted; congr (_ * _).
rewrite [LHS](reindex_inj (mulIg g)) /=; apply: eq_big => [h | h _].
  by rewrite groupMr // conjgM (inj_eq (conjg_inj g)).
by rewrite invMg conjgM conjgK.
Qed.

Lemma twisted_rep a (phi : 'CF('C_G[a])) y : twisted a phi a y = phi y.
Proof.
rewrite /twisted (eq_bigl (mem 'C_G[a]%g)) => [g|].
  by rewrite !inE conjg_set1 sub1set inE.
rewrite (eq_bigr (fun=> phi y)) => [g gC|]; first by rewrite cfunJ ?groupV.
by rewrite sumr_const -[phi y *+ _]mulr_natl mulKf ?neq0CG.
Qed.

Lemma twisted_out a chi x y : x \notin (a ^: G)%g -> twisted a chi x y = 0.
Proof.
move=> xna; rewrite /twisted big_pred0 ?mulr0 // => g.
by apply: contraNF xna => /andP[gG /eqP <-]; apply/imsetP; exists g.
Qed.

Lemma twistedE a (phi : 'CF('C_G[a])) u y : u \in G ->
  twisted a phi (a ^ u) y = phi (y ^ u^-1)%g.
Proof.
by move=> uG; rewrite -{1}(conjgKV u y) twistedJ // twisted_rep.
Qed.

(* A sum over G of a function constant on the conjugacy classes, class by
   class. *)
Lemma sum_reps (F : gT -> algC) :
  {in G &, forall x g, F (x ^ g)%g = F x} ->
  \sum_(x in G) F x = \sum_(a <- reps) #|(a ^: G)%g|%:R * F a.
Proof.
move=> FJ; rewrite sum_by_classes //.
case/andP: repsP => _ pm.
transitivity (\sum_(a <- reps) #|(a ^: G)%g|%:R * F (repr (a ^: G)%g)).
  rewrite -(big_map (fun a => (a ^: G)%g) xpredT
              (fun C => #|C|%:R * F (repr C))).
  by rewrite (perm_big _ pm) /= big_enum.
rewrite big_seq [RHS]big_seq; apply: eq_bigr => a /reps_in_G aG.
by have [y yG ->] := repr_class G a; rewrite FJ.
Qed.

Lemma reps_uniq : uniq reps.
Proof.
case/andP: repsP => _ pm.
have := enum_uniq (classes G); rewrite -(perm_uniq pm).
exact: map_uniq.
Qed.

(* Two representatives in the same class are the same. *)
Lemma reps_class a b :
  a \in reps -> b \in reps -> (a \in b ^: G)%g -> a = b.
Proof.
case/andP: repsP => _ pm ain bin /class_eqP eq_ab.
have := enum_uniq (classes G); rewrite -(perm_uniq pm).
by move/uniq_map_inj_in/(_ a b ain bin eq_ab).
Qed.

Lemma big_reps1 a (F : gT -> algC) :
  a \in reps -> (forall b, b \in reps -> b != a -> F b = 0) ->
  \sum_(b <- reps) F b = F a.
Proof.
move=> ain F0; rewrite (bigD1_seq a) ?reps_uniq //= big_seq_cond big1 ?addr0 //.
by move=> b /andP[bin bna]; apply: F0.
Qed.

Lemma sumJ (F : gT -> algC) g : g \in G ->
  \sum_(y in G) F (y ^ g)%g = \sum_(y in G) F y.
Proof.
move=> gG; rewrite [RHS](reindex_inj (conjg_inj g)) /=.
by apply: eq_bigl => y; rewrite groupJr.
Qed.

Lemma pair_sum_reps Phi : invariant Phi ->
  pair_sum Phi
  = \sum_(a <- reps) #|'C_G[a]%g|%:R^-1 * \sum_(y in G) Phi a y.
Proof.
move=> PhiJ; rewrite /pair_sum sum_reps => [x g xG gG|].
  by rewrite -(sumJ _ gG); apply: eq_bigr => y _; rewrite PhiJ.
rewrite mulr_sumr big_seq [RHS]big_seq; apply: eq_bigr => a.
move/reps_in_G => aG; rewrite mulrA; congr (_ * _).
rewrite -(card_class_cent aG) natrM invfM mulrAC -mulrA divff ?mulr1 //.
by rewrite pnatr_eq0 -lt0n; apply/card_gt0P; exists a; apply: class_refl.
Qed.

Lemma s_val_twisted a b (i : Iirr 'C_G[a]) (j : Iirr 'C_G[b]) : b \in G ->
  s_val G (SimpleObject a 'chi_i) (SimpleObject b 'chi_j) true
  = #|'C_G[a]%g|%:R^-1 * \sum_(y in G) 'chi_i y * twisted b 'chi_j y a.
Proof.
move=> bG; rewrite /s_val /= /twisted.
rewrite [X in _ = _ * X](eq_bigr (fun y => #|'C_G[b]%g|%:R^-1
    * \sum_(g in G | (b ^ g == y)%g) 'chi_i y * 'chi_j (a ^ g^-1)%g))
  => [y _|]; first by rewrite mulrCA -mulr_sumr.
rewrite -mulr_sumr mulrA -invfM -natrM div1r; congr (_ * _).
rewrite (exchange_big_dep (mem G)) /= => [y g _ /andP[] //|].
rewrite [RHS](reindex_inj invg_inj) big_mkcondr /=.
apply: eq_big => [g | g gG]; first by rewrite groupV.
rewrite (big_pred1 (b ^ g^-1)%g) => [y|].
  rewrite groupV gG /= [RHS]eq_sym andb_idl // => /eqP <-.
  by rewrite groupJ ?groupV.
rewrite !invgK !conjgE invgK -!mulgA; case: eqP => // /eqP ncomm.
rewrite [X in X * _]cfun0 ?mul0r // inE negb_and cent1E.
by rewrite -!mulgA eq_sym ncomm orbT.
Qed.

Lemma s_val_pair a b (i : Iirr 'C_G[a]) (j : Iirr 'C_G[b]) :
  a \in reps -> b \in G ->
  s_val G (SimpleObject a 'chi_i) (SimpleObject b 'chi_j) true
  = pair_sum (fun x y => twisted a 'chi_i x y * twisted b 'chi_j y x).
Proof.
move=> ain bG; rewrite pair_sum_reps => [x y g gG|].
  by rewrite !twistedJ.
rewrite (big_reps1 ain) => [a0 a0in a0na|].
  rewrite big1 ?mulr0 // => y _; rewrite twisted_out ?mul0r //.
  by apply: contraNN a0na => /(reps_class a0in ain) ->.
rewrite s_val_twisted //; congr (_ * _); apply: eq_bigr => y _.
by rewrite twisted_rep.
Qed.

(* Every element of G is conjugate to one representative. *)
Lemma repsE x : x \in G ->
  exists2 a, a \in reps & exists2 u, u \in G & x = (a ^ u)%g.
Proof.
case/andP: repsP => _ /perm_mem pm xG.
have: (x ^: G)%g \in [seq (a ^: G)%g | a <- reps].
  by rewrite pm mem_enum; apply: mem_classes.
case/mapP => a ain eq_xa; exists a => //.
by have := class_refl G x; rewrite eq_xa => /imsetP[u uG ->]; exists u.
Qed.

Lemma twisted_comm a (phi : 'CF('C_G[a])) x y :
  y \notin 'C_G[x]%g -> twisted a phi x y = 0.
Proof.
move=> ynC; have [/imsetP[u uG eq_x] | xna] := boolP (x \in (a ^: G)%g);
  last by rewrite twisted_out.
rewrite eq_x twistedE // cfun0 //; apply: contraNN ynC.
by rewrite eq_x !in_setI cent1J mem_conjg groupJr ?groupV.
Qed.

Lemma cent1_conj (x v : gT) : (x \in 'C[v]%g) = ((v ^ x)%g == v).
Proof.
by apply/cent1P/eqP => [/commute_sym/commgP/conjg_fixP | /conjg_fixP/commgP/commute_sym].
Qed.

(* The elements of a group that conjugate v to w: none, or a coset of the
   centralizer of v. *)
Lemma card_conj (K : {group gT}) (v w : gT) :
  #|[set c in K | (v ^ c)%g == w]|
  = if w \in (v ^: K)%g then #|'C_K[v]%g| else 0%N.
Proof.
have [/imsetP[c0 c0K ->] | wnv] := ifPn.
  rewrite -[RHS](card_rcoset _ c0); congr #|pred_of_set _|.
  apply/setP=> c; rewrite inE mem_rcoset in_setI groupMr ?groupV //.
  congr (_ && _); rewrite cent1_conj conjgM.
  by rewrite -[RHS](inj_eq (conjg_inj c0)) conjgKV.
apply/eqP; rewrite cards_eq0 -subset0; apply/subsetP=> c.
rewrite inE => /andP[cK /eqP eq_w]; case/negP: wnv.
by rewrite -eq_w; apply/imsetP; exists c.
Qed.

Lemma sum_cent a (phi : 'CF('C_G[a])) (F : gT -> algC) :
  \sum_(y in G) phi y * F y = \sum_(y in 'C_G[a]%g) phi y * F y.
Proof.
rewrite (bigID (mem 'C_G[a]%g)) /= [X in _ + X]big1 ?addr0 => [y|].
  by case/andP=> _ ynC; rewrite cfun0 ?mul0r.
by apply: eq_bigl => y; rewrite in_setI andbA andbb.
Qed.

(* The characters carried from different representatives, or different
   characters of one centralizer, are orthogonal; each has norm one. *)
Lemma twisted_orthogonal a a' (i : Iirr 'C_G[a]) (i' : Iirr 'C_G[a']) :
  a \in reps -> a' \in reps -> a != a' ->
  pair_sum (fun x y => twisted a 'chi_i x y * (twisted a' 'chi_i' x y)^*) = 0.
Proof.
move=> ain a'in ana'; rewrite pair_sum_reps => [x y g gG|].
  by rewrite !twistedJ.
rewrite big_seq big1 // => a0 a0in; rewrite big1 ?mulr0 // => y _.
have [a0a | a0na] := boolP (a0 \in (a ^: G)%g); last first.
  by rewrite twisted_out ?mul0r.
rewrite [X in _ * X^*]twisted_out ?conjC0 ?mulr0 //.
apply: contraNN ana' => a0a'.
by rewrite -(reps_class a0in ain a0a) -(reps_class a0in a'in a0a').
Qed.

Lemma twisted_orthonormal a (i i' : Iirr 'C_G[a]) : a \in reps ->
  pair_sum (fun x y => twisted a 'chi_i x y * (twisted a 'chi_i' x y)^*)
  = (i == i')%:R.
Proof.
move=> ain; rewrite pair_sum_reps => [x y g gG|].
  by rewrite !twistedJ.
rewrite (big_reps1 ain) => [a0 a0in a0na|].
  rewrite big1 ?mulr0 // => y _; rewrite twisted_out ?mul0r //.
  by apply: contraNN a0na => /(reps_class a0in ain) ->.
rewrite -cfdot_irr cfdotE; congr (_ * _).
rewrite -sum_cent; apply: eq_bigr => y _.
by rewrite !twisted_rep.
Qed.

(* The second orthogonality relation, for the characters carried along one
   conjugacy class. *)
Lemma twisted_column_class a u u' y y' :
  u \in G -> u' \in G -> y' \in 'C_G[a ^ u']%g ->
  \sum_(i < Nirr 'C_G[a])
     twisted a 'chi_i (a ^ u)%g y * (twisted a 'chi_i (a ^ u')%g y')^*
  = #|[set g in G | ((a ^ u) ^ g == a ^ u')%g && (y ^ g == y')%g]|%:R.
Proof.
move=> uG u'G y'C; pose v := (y ^ u^-1)%g; pose w := (y' ^ u'^-1)%g.
have wK : w \in 'C_G[a]%g.
  case/setIP: y'C => y'G y'C.
  by rewrite in_setI groupJ ?groupV //= /w -mem_conjg -cent1J.
rewrite (eq_bigr (fun i : Iirr 'C_G[a] => 'chi_i v * ('chi_i w)^*))
  => [i _|]; first by rewrite !twistedE.
rewrite second_orthogonality_relation // class_sym.
transitivity (#|[set c in 'C_G[a]%g | (v ^ c)%g == w]|%:R : algC).
  by rewrite card_conj; case: ifP.
congr (_%:R); rewrite -!sum1_card.
pose f c := (u^-1 * c * u')%g.
have f_inj : injective f by move=> c c' /mulIg /mulgI.
rewrite [RHS](reindex_inj f_inj) /=; apply: eq_bigl => c.
rewrite [LHS]in_set [RHS]in_set in_setI /f groupMr // groupMl ?groupV //.
rewrite -andbA; congr (_ && _).
rewrite -!conjgM !mulgA mulgV mul1g !conjgM (inj_eq (conjg_inj u')).
rewrite cent1_conj; congr (_ && _).
by rewrite -[RHS](inj_eq (conjg_inj u'^-1%g)) conjgK.
Qed.

Lemma twisted_column x y x' y' : x \in G ->
  \sum_(a <- reps) \sum_(i < Nirr 'C_G[a])
     twisted a 'chi_i x y * (twisted a 'chi_i x' y')^*
  = #|[set g in G | (x ^ g == x')%g && (y ^ g == y')%g]|%:R
    *+ (y' \in 'C_G[x']%g).
Proof.
move=> xG; have [a ain [u uG eq_x]] := repsE xG.
rewrite (big_reps1 ain) => [a0 a0in a0na|].
  rewrite big1 // => i _; rewrite twisted_out ?mul0r //.
  apply: contraNN a0na => xa0.
  have a0a : a0 \in (a ^: G)%g.
    by rewrite -(@class_transl _ G x a0 a xa0) eq_x; apply/imsetP; exists u.
  by rewrite (reps_class a0in ain a0a).
have [y'C | y'nC] := boolP (y' \in _); last first.
  by rewrite mulr0n big1 // => i _; rewrite [X in X^*]twisted_comm ?conjC0 ?mulr0.
rewrite mulr1n; have [/imsetP[u' u'G eq_x'] | x'na] := boolP (x' \in (a ^: G)%g).
  by rewrite eq_x {1}eq_x' twisted_column_class -?eq_x'.
rewrite big1 => [i _|]; first by rewrite [X in X^*]twisted_out ?conjC0 ?mulr0.
rewrite (_ : [set g in G | _] = set0) ?cards0 //.
apply/setP=> g; rewrite in_set in_set0; apply/negbTE/negP.
case/and3P=> gG /eqP eq1 _; case/negP: x'na.
by rewrite -eq1 eq_x -conjgM; apply/imsetP; exists (u * g)%g; rewrite ?groupM.
Qed.

Lemma eq_pair_sum Phi Psi :
  (forall x y, x \in G -> y \in G -> Phi x y = Psi x y) ->
  pair_sum Phi = pair_sum Psi.
Proof.
move=> eqP; congr (_ * _); apply: eq_bigr => x xG.
by apply: eq_bigr => y yG; apply: eqP.
Qed.

Lemma pair_sumZr Phi t : pair_sum Phi * t = pair_sum (fun x y => Phi x y * t).
Proof.
rewrite /pair_sum -mulrA mulr_suml; congr (_ * _).
by apply: eq_bigr => x _; rewrite mulr_suml.
Qed.

Lemma pair_sum_sum (I : Type) (r : seq I) (Phi : I -> gT -> gT -> algC) :
  \sum_(i <- r) pair_sum (Phi i)
  = pair_sum (fun x y => \sum_(i <- r) Phi i x y).
Proof.
rewrite /pair_sum -mulr_sumr exchange_big; congr (_ * _).
by apply: eq_bigr => x _; rewrite exchange_big.
Qed.

Lemma pair_sum_conj Phi : (pair_sum Phi)^* = pair_sum (fun x y => (Phi x y)^*).
Proof.
rewrite /pair_sum rmorphM /= fmorphV /= conjC_nat rmorph_sum; congr (_ * _).
by apply: eq_bigr => x _; rewrite rmorph_sum.
Qed.

Lemma pair_sum_swap Phi : pair_sum (fun x y => Phi y x) = pair_sum Phi.
Proof. by rewrite /pair_sum exchange_big. Qed.

(* The sum over the conjugates of a pair, grouped by the pair reached. *)
Lemma sum_conj_count (F : gT -> gT -> algC) x y : x \in G -> y \in G ->
  \sum_(x' in G) \sum_(y' in G)
     F x' y' * #|[set g in G | (x ^ g == x')%g && (y ^ g == y')%g]|%:R
  = \sum_(g in G) F (x ^ g)%g (y ^ g)%g.
Proof.
move=> xG yG.
rewrite [RHS](partition_big (fun g => x ^ g)%g (mem G)) => [g gG|] /=.
  by rewrite groupJ.
apply: eq_bigr => x' x'G.
rewrite [RHS](partition_big (fun g => y ^ g)%g (mem G)) => [g /andP[gG _]|] /=.
  by rewrite groupJ.
apply: eq_bigr => y' y'G.
rewrite -sum1_card natr_sum mulr_sumr; apply: eq_big => [g | g].
  by rewrite in_set andbA.
by rewrite in_set => /and3P[_ /eqP <- /eqP <-]; rewrite mulr1.
Qed.

(* Every function of the commuting pairs that is invariant under conjugation
   is a combination of the carried characters. *)
Lemma twisted_expansion Psi x y :
  invariant Psi -> commuting_support Psi -> x \in G -> y \in G ->
  Psi x y = \sum_(b <- reps) \sum_(j < Nirr 'C_G[b])
              pair_dot Psi (twisted b 'chi_j) * twisted b 'chi_j x y.
Proof.
move=> PsiJ Psi0 xG yG.
pose F x' y' :=
  Psi x' y' * #|[set g in G | (x ^ g == x')%g && (y ^ g == y')%g]|%:R.
transitivity (pair_sum F).
  rewrite /pair_sum sum_conj_count // (eq_bigr (fun=> Psi x y)) => [g gG|].
    by rewrite PsiJ.
  by rewrite sumr_const -[Psi x y *+ _]mulr_natl mulKf ?neq0CG.
rewrite [RHS](eq_bigr (fun b => pair_sum (fun x' y' =>
    \sum_(j < Nirr 'C_G[b])
       Psi x' y' * (twisted b 'chi_j x' y')^* * twisted b 'chi_j x y)))
  => [b _|].
  by rewrite -pair_sum_sum; apply: eq_bigr => j _; rewrite pair_sumZr.
rewrite pair_sum_sum; apply: eq_pair_sum => x' y' x'G y'G.
transitivity (Psi x' y' * \sum_(b <- reps) \sum_(j < Nirr 'C_G[b])
                twisted b 'chi_j x y * (twisted b 'chi_j x' y')^*).
  rewrite twisted_column // /F.
  rewrite in_setI y'G /=.
  by case: (boolP (y' \in _)) => [_ | /Psi0 ->]; rewrite ?mulr1n ?mul0r.
rewrite mulr_sumr; apply: eq_bigr => b _; rewrite mulr_sumr.
by apply: eq_bigr => j _; rewrite [RHS]mulrC mulrCA.
Qed.

Lemma pair_dot_parseval Phi Psi :
  invariant Psi -> commuting_support Psi ->
  pair_dot Phi Psi
  = \sum_(b <- reps) \sum_(j < Nirr 'C_G[b])
      pair_dot Phi (twisted b 'chi_j) * (pair_dot Psi (twisted b 'chi_j))^*.
Proof.
move=> PsiJ Psi0.
rewrite [RHS](eq_bigr (fun b => pair_sum (fun x y =>
    \sum_(j < Nirr 'C_G[b])
       Phi x y * (twisted b 'chi_j x y)^*
       * (pair_dot Psi (twisted b 'chi_j))^*)))
  => [b _|].
  by rewrite -pair_sum_sum; apply: eq_bigr => j _; rewrite pair_sumZr.
rewrite pair_sum_sum; apply: eq_pair_sum => x y xG yG.
rewrite {1}(twisted_expansion PsiJ Psi0 xG yG) rmorph_sum mulr_sumr.
apply: eq_bigr => b _; rewrite rmorph_sum mulr_sumr.
by apply: eq_bigr => j _; rewrite rmorphM /= mulrA mulrAC.
Qed.

Lemma twistedV a (i : Iirr 'C_G[a]) x y :
  (twisted a 'chi_i x y)^* = twisted a 'chi_i x y^-1%g.
Proof.
rewrite /twisted rmorphM /= fmorphV /= conjC_nat rmorph_sum; congr (_ * _).
by apply: eq_bigr => g _; rewrite conjVg irr_inv.
Qed.

Lemma twisted_support a (i : Iirr 'C_G[a]) : a \in G ->
  forall x y, ~~ [&& x \in G, y \in G & y \in 'C[x]%g] ->
  twisted a 'chi_i x y = 0.
Proof.
move=> aG x y; have [xG /= | xnG _] := boolP (x \in G).
  by rewrite -in_setI; apply: twisted_comm.
rewrite twisted_out //; apply: contraNN xnG => /imsetP[u uG ->].
by rewrite groupJ.
Qed.

Lemma pair_sum_invr Phi : pair_sum (fun p q => Phi p q^-1%g) = pair_sum Phi.
Proof.
congr (_ * _); apply: eq_bigr => p _.
rewrite [RHS](reindex_inj invg_inj) /=.
by apply: eq_bigl => q; rewrite groupV.
Qed.

Lemma cotwistedJ a chi : invariant (cotwisted a chi).
Proof. by move=> x y g gG; rewrite /cotwisted -conjVg twistedJ. Qed.

Lemma cotwisted_support a (i : Iirr 'C_G[a]) : a \in G ->
  commuting_support (cotwisted a 'chi_i).
Proof.
move=> aG p q pG qG qnC; rewrite /cotwisted twisted_support //.
by apply: contraNN qnC => /and3P[_ _]; rewrite cent1C groupV.
Qed.

Lemma s_val_dot a b (i : Iirr 'C_G[a]) (j : Iirr 'C_G[b]) :
  a \in reps -> b \in G ->
  s_val G (SimpleObject a 'chi_i) (SimpleObject b 'chi_j) true
  = pair_dot (cotwisted a 'chi_i) (twisted b 'chi_j).
Proof.
move=> ain bG; rewrite s_val_pair // -pair_sum_swap /pair_dot /cotwisted.
rewrite -[LHS]pair_sum_invr; apply: eq_pair_sum => p q _ _.
by rewrite twistedV.
Qed.

Lemma pair_dot_cotwisted a a' chi chi' :
  pair_dot (cotwisted a chi) (cotwisted a' chi')
  = pair_dot (twisted a chi) (twisted a' chi').
Proof.
rewrite /pair_dot /cotwisted -[RHS]pair_sum_swap -[RHS]pair_sum_invr.
by [].
Qed.

(* The rows of the matrix of the s_ij(unitary=True) are orthonormal. *)
Lemma s_val_unitary a a' (i : Iirr 'C_G[a]) (i' : Iirr 'C_G[a']) :
  a \in reps -> a' \in reps ->
  \sum_(b <- reps) \sum_(j < Nirr 'C_G[b])
     s_val G (SimpleObject a 'chi_i) (SimpleObject b 'chi_j) true
     * (s_val G (SimpleObject a' 'chi_i') (SimpleObject b 'chi_j) true)^*
  = pair_dot (twisted a 'chi_i) (twisted a' 'chi_i').
Proof.
move=> ain a'in; rewrite -pair_dot_cotwisted.
rewrite (pair_dot_parseval _ (@cotwistedJ a' 'chi_i')
          (cotwisted_support i' (reps_in_G a'in))).
rewrite big_seq [RHS]big_seq; apply: eq_bigr => b /reps_in_G bG.
by apply: eq_bigr => j _; rewrite !s_val_dot.
Qed.

Lemma cent1_inv (x : gT) : 'C[x^-1]%g = 'C[x]%g.
Proof. by apply/setP=> y; rewrite cent1C groupV cent1C. Qed.

(* The dual object: the class of the inverse, and the conjugate character
   carried to the centralizer of its representative. *)
Lemma dual_object a (i : Iirr 'C_G[a]) : a \in reps ->
  exists2 a', a' \in reps & exists i' : Iirr 'C_G[a'],
    forall x y, twisted a' 'chi_i' x y = (twisted a 'chi_i x^-1%g y)^*.
Proof.
move=> ain; have aG := reps_in_G ain.
have [a' a'in [t tG eq_a]] := repsE (groupVr aG); exists a' => //.
have eq_at : (a ^ t^-1)%g = a'^-1%g by rewrite -[a]invgK eq_a conjVg conjgK.
have eqC : ('C_G[a] :^ t^-1)%g = 'C_G[a']%g.
  by rewrite conjIg conjGid ?groupV // -cent1J eq_at cent1_inv.
have isoC : isom 'C_G[a]%g 'C_G[a']%g (conjgm 'C_G[a]%g t^-1%g).
  by rewrite -eqC; apply: conj_isom.
exists (conjC_Iirr (isom_Iirr isoC i)).
have chiE z : 'chi_(conjC_Iirr (isom_Iirr isoC i)) z = ('chi_i (z ^ t)%g)^*.
  rewrite conjC_IirrE isom_IirrE cfunE; congr (_^*).
  have [zC | znC] := boolP (z \in 'C_G[a']%g); last first.
    rewrite !cfun0 //; apply: contraNN znC.
    by rewrite -eqC mem_conjgV.
  have ztC : (z ^ t)%g \in 'C_G[a]%g by rewrite -mem_conjgV eqC.
  by rewrite -(cfIsomE isoC _ ztC) /= /conjgm conjgK.
have cardC : #|'C_G[a']%g| = #|'C_G[a]%g| by rewrite -eqC cardJg.
move=> x y; rewrite /twisted rmorphM /= fmorphV /= conjC_nat rmorph_sum cardC.
congr (_ * _).
rewrite [RHS](reindex_inj (mulgI t^-1%g)) /=; apply: eq_big => [g | g _].
  by rewrite groupMl ?groupV // conjgM eq_at conjVg (inj_eq invg_inj).
by rewrite chiE invMg invgK conjgM.
Qed.

Lemma pair_sum_invl Phi : pair_sum (fun p q => Phi p^-1%g q) = pair_sum Phi.
Proof.
congr (_ * _); rewrite [RHS](reindex_inj invg_inj) /=.
by apply: eq_bigl => q; rewrite groupV.
Qed.

Lemma s_val_dual a a' b (i : Iirr 'C_G[a]) (i' : Iirr 'C_G[a'])
    (j : Iirr 'C_G[b]) :
  a \in reps -> a' \in reps -> b \in G ->
  (forall x y, twisted a' 'chi_i' x y = (twisted a 'chi_i x^-1%g y)^*) ->
  s_val G (SimpleObject a' 'chi_i') (SimpleObject b 'chi_j) true
  = (s_val G (SimpleObject a 'chi_i) (SimpleObject b 'chi_j) true)^*.
Proof.
move=> ain a'in bG eq_tw; rewrite !s_val_pair // pair_sum_conj.
rewrite -[RHS]pair_sum_invl; apply: eq_pair_sum => x y _ _.
by rewrite eq_tw [RHS]rmorphM /= (twistedV j) invgK.
Qed.

Lemma s_val_sym a b (i : Iirr 'C_G[a]) (j : Iirr 'C_G[b]) :
  a \in reps -> b \in reps ->
  s_val G (SimpleObject a 'chi_i) (SimpleObject b 'chi_j) true
  = s_val G (SimpleObject b 'chi_j) (SimpleObject a 'chi_i) true.
Proof.
move=> ain bin; rewrite !s_val_pair ?reps_in_G //.
by rewrite -pair_sum_swap; apply: eq_pair_sum => x y _ _; rewrite mulrC.
Qed.

Lemma conv3_suml (K : {group gT}) (I : finType) (c : I -> algC)
    (F : I -> gT -> algC) f' g :
  conv3 K (fun y => \sum_m c m * F m y) f' g
  = \sum_m c m * conv3 K (F m) f' g.
Proof.
rewrite /conv3 [RHS](eq_bigr (fun m => #|K|%:R^-1 *
   \sum_(y in K) \sum_(y' in K) c m * (F m y * f' y' * (g (y * y')%g)^*)))
  => [m _|].
  rewrite mulrCA; congr (_ * _); rewrite mulr_sumr.
  by apply: eq_bigr => y _; rewrite mulr_sumr.
rewrite -mulr_sumr [in RHS]exchange_big; congr (_ * _); apply: eq_bigr => y _.
rewrite [RHS]exchange_big; apply: eq_bigr => y' _.
by rewrite -mulrA mulr_suml; apply: eq_bigr => m _; rewrite !mulrA.
Qed.

Lemma conv3_sumr (K : {group gT}) (I : finType) (c : I -> algC)
    (F : I -> gT -> algC) f g :
  conv3 K f (fun y => \sum_m c m * F m y) g
  = \sum_m c m * conv3 K f (F m) g.
Proof.
rewrite /conv3 [RHS](eq_bigr (fun m => #|K|%:R^-1 *
   \sum_(y in K) \sum_(y' in K) c m * (f y * F m y' * (g (y * y')%g)^*)))
  => [m _|].
  rewrite mulrCA; congr (_ * _); rewrite mulr_sumr.
  by apply: eq_bigr => y _; rewrite mulr_sumr.
rewrite -mulr_sumr [in RHS]exchange_big; congr (_ * _); apply: eq_bigr => y _.
rewrite [RHS]exchange_big; apply: eq_bigr => y' _.
rewrite mulr_sumr mulr_suml; apply: eq_bigr => m _.
by rewrite !mulrA [f y * _]mulrC.
Qed.

Lemma irr_convolution (K : {group gT}) (m m' : Iirr K) z :
  #|K|%:R^-1 * (\sum_(y in K) 'chi_m y * 'chi_m' (y^-1 * z)%g)
  = (m == m')%:R * ('chi_m z / 'chi_m 1%g).
Proof.
transitivity ((m' == m)%:R * ('chi_m' z / 'chi_m' 1%g)); last first.
  by rewrite eq_sym; case: eqVneq => [-> | _] //; rewrite !mul0r.
rewrite -generalized_orthogonality_relation; congr (_ * _).
rewrite [RHS](reindex_inj invg_inj) /=.
apply: eq_big => [y | y _]; first by rewrite groupV.
by rewrite invgK mulrC.
Qed.

Lemma conv3_irr (K : {group gT}) (m m' : Iirr K) (g : 'CF(K)) :
  conv3 K 'chi_m 'chi_m' g
  = (m == m')%:R * (#|K|%:R * ('[g, 'chi_m])^* / 'chi_m 1%g).
Proof.
have nzK := neq0CG K; have nz1 := irr1_neq0 m.
pose S := \sum_(z in K) (g z)^* * 'chi_m z.
have -> : ('[g, 'chi_m])^* = #|K|%:R^-1 * S.
  rewrite cfdotE rmorphM /= fmorphV /= conjC_nat rmorph_sum; congr (_ * _).
  by apply: eq_bigr => z _; rewrite rmorphM /= conjCK.
rewrite /conv3.
rewrite (eq_bigr (fun y =>
    \sum_(z in K) 'chi_m y * 'chi_m' (y^-1 * z)%g * (g z)^*)) => [y yK|].
  rewrite [RHS](reindex_inj (mulgI y)) /=.
  apply: eq_big => [y' | y' _]; first by rewrite groupMl.
  by rewrite mulKg.
rewrite exchange_big /=.
rewrite (eq_bigr (fun z => ((m == m')%:R * #|K|%:R / 'chi_m 1%g)
                           * ((g z)^* * 'chi_m z))) => [z _|].
  rewrite -mulr_suml -[\sum_(y in K) _](mulVKf nzK) irr_convolution.
  by field.
by rewrite -mulr_sumr -/S; field.
Qed.

Lemma conv3_cfdot (K : {group gT}) (f f' g : 'CF(K)) :
  conv3 K f f' g
  = \sum_m '[f, 'chi_m] * '[f', 'chi_m] * ('[g, 'chi_m])^*
            / ('chi_m 1%g / #|K|%:R).
Proof.
have cfE (h : 'CF(K)) y : h y = \sum_m '[h, 'chi_m] * 'chi_m y.
  rewrite {1}(cfun_sum_cfdot h) sum_cfunE.
  by apply: eq_bigr => m _; rewrite cfunE.
have -> : conv3 K f f' g
  = conv3 K (fun y => \sum_m '[f, 'chi_m] * 'chi_m y)
      (fun y => \sum_m '[f', 'chi_m] * 'chi_m y) g.
  rewrite /conv3; congr (_ * _); apply: eq_bigr => y _.
  by apply: eq_bigr => y' _; rewrite -!cfE.
rewrite conv3_suml; apply: eq_bigr => m _.
rewrite conv3_sumr (bigD1 m) //= big1 ?addr0 => [m' m'nm|].
  by rewrite conv3_irr eq_sym (negbTE m'nm) mul0r mulr0.
have nzK := neq0CG K; have nz1 := irr1_neq0 m.
by rewrite conv3_irr eqxx mul1r; field.
Qed.

(* The carried characters of the classes through the centralizer of b, as a
   class function of that centralizer. *)
Fact twisted_cf_subproof a chi b :
  is_class_fun (<<'C_G[b]>>)%g
    [ffun y => if y \in 'C_G[b]%g then twisted a chi y b else 0].
Proof.
rewrite genGid; apply: intro_class_fun => [y c yC cC | y /negbTE -> //].
rewrite groupJ // yC; case/setIP: cC => cG cC.
have /eqP bc : (b ^ c)%g == b by rewrite -cent1_conj.
by rewrite -{1}bc twistedJ.
Qed.
Definition twisted_cf a chi b : 'CF('C_G[b]) :=
  Cfun 0 (twisted_cf_subproof a chi b).

Lemma twisted_cfE a chi b y :
  twisted_cf a chi b y = if y \in 'C_G[b]%g then twisted a chi y b else 0.
Proof. by rewrite cfunE. Qed.

Lemma s_val_cfdot a b (i : Iirr 'C_G[a]) (m : Iirr 'C_G[b]) :
  a \in reps -> b \in reps ->
  s_val G (SimpleObject a 'chi_i) (SimpleObject b 'chi_m) true
  = '[twisted_cf a 'chi_i b, ('chi_m)^*%CF].
Proof.
move=> ain bin; rewrite s_val_sym // s_val_twisted ?reps_in_G //.
rewrite sum_cent cfdotE; congr (_ * _); apply: eq_bigr => y yC.
by rewrite twisted_cfE yC cfunE conjCK mulrC.
Qed.

(* The sum of the Verlinde formula, centralizer by centralizer. *)
Lemma verlinde_conv a1 a2 a3 (i1 : Iirr 'C_G[a1]) (i2 : Iirr 'C_G[a2])
    (i3 : Iirr 'C_G[a3]) :
  a1 \in reps -> a2 \in reps -> a3 \in reps ->
  \sum_(b <- reps) \sum_(m < Nirr 'C_G[b])
     s_val G (SimpleObject a1 'chi_i1) (SimpleObject b 'chi_m) true
     * s_val G (SimpleObject a2 'chi_i2) (SimpleObject b 'chi_m) true
     * (s_val G (SimpleObject a3 'chi_i3) (SimpleObject b 'chi_m) true)^*
     / s_val G (SimpleObject 1%g 'chi['C_G[1]]_0) (SimpleObject b 'chi_m) true
  = \sum_(b <- reps)
      conv3 'C_G[b] (twisted_cf a1 'chi_i1 b) (twisted_cf a2 'chi_i2 b)
        (twisted_cf a3 'chi_i3 b).
Proof.
move=> a1in a2in a3in; rewrite big_seq [RHS]big_seq.
apply: eq_bigr => b bin; rewrite conv3_cfdot.
rewrite [RHS](reindex_inj (can_inj (@conjC_IirrK _ _))).
apply: eq_bigr => m _; rewrite s_one_val ?reps_in_G // !s_val_cfdot //.
by rewrite conjC_IirrE mul1r cfunE [X in _ = _ / (X / _)]conj_natr ?Cnat_irr1.
Qed.

Lemma twisted_cf_val a b (i : Iirr 'C_G[a]) y : a \in G ->
  twisted_cf a 'chi_i b y = twisted a 'chi_i y b.
Proof.
move=> aG; rewrite twisted_cfE; case: ifPn => // ynC.
rewrite twisted_support //; apply: contraNN ynC => /and3P[yG _].
by rewrite in_setI yG cent1C.
Qed.

Lemma tripleJ a1 a2 a3 chi1 chi2 chi3 :
  invariant (triple a1 a2 a3 chi1 chi2 chi3).
Proof.
move=> z x g gG; rewrite /triple -[LHS](sumJ _ gG).
apply: eq_bigr => y _.
by rewrite -conjVg -conjMg !twistedJ.
Qed.

Lemma conv3_triple a1 a2 a3 b (i1 : Iirr 'C_G[a1]) (i2 : Iirr 'C_G[a2])
    (i3 : Iirr 'C_G[a3]) :
  a1 \in G -> a2 \in G -> a3 \in G ->
  conv3 'C_G[b] (twisted_cf a1 'chi_i1 b) (twisted_cf a2 'chi_i2 b)
    (twisted_cf a3 'chi_i3 b)
  = #|'C_G[b]%g|%:R^-1
    * \sum_(z in G) triple a1 a2 a3 'chi_i1 'chi_i2 'chi_i3 z b.
Proof.
move=> a1G a2G a3G; rewrite /conv3; congr (_ * _).
set f1 := twisted_cf a1 _ b; set f2 := twisted_cf a2 _ b.
set f3 := twisted_cf a3 _ b.
transitivity (\sum_(y in G) f1 y * \sum_(y' in G) f2 y' * (f3 (y * y')%g)^*).
  rewrite sum_cent; apply: eq_bigr => y _; rewrite sum_cent mulr_sumr.
  by apply: eq_bigr => y' _; rewrite mulrA.
rewrite /triple [RHS]exchange_big /=; apply: eq_bigr => y yG.
rewrite mulr_sumr [RHS](reindex_inj (mulgI y)) /=.
apply: eq_big => [y' | y' _]; first by rewrite groupMl.
by rewrite mulKg mulrA /f1 /f2 /f3 !twisted_cf_val.
Qed.

Lemma conv3_char_sum a1 a2 a3 (i1 : Iirr 'C_G[a1]) (i2 : Iirr 'C_G[a2])
    (i3 : Iirr 'C_G[a3]) :
  a1 \in G -> a2 \in G -> a3 \in reps ->
  \sum_(b <- reps)
      conv3 'C_G[b] (twisted_cf a1 'chi_i1 b) (twisted_cf a2 'chi_i2 b)
        (twisted_cf a3 'chi_i3 b)
  = char_sum a1 a2 a3 'chi_i1 'chi_i2 'chi_i3.
Proof.
move=> a1G a2G a3in; have a3G := reps_in_G a3in.
pose Psi := triple a1 a2 a3 'chi_i1 'chi_i2 'chi_i3.
transitivity (pair_sum (fun x z => Psi z x)).
  rewrite pair_sum_reps => [x z g gG|]; first by rewrite /Psi tripleJ.
  by apply: eq_bigr => b _; rewrite conv3_triple.
rewrite pair_sum_swap (pair_sum_reps (@tripleJ _ _ _ _ _ _)).
rewrite (big_reps1 a3in) => [a0 a0in a0na|].
  rewrite big1 ?mulr0 // => x _; rewrite /Psi /triple big1 // => y _.
  rewrite [X in X^*]twisted_out ?conjC0 ?mulr0 //.
  by apply: contraNN a0na => /(reps_class a0in a3in) ->.
congr (_ * _); apply: eq_bigr => x _; apply: eq_bigr => y _.
by rewrite twisted_rep.
Qed.

(* Along the class of a, the carried character is a character of the
   centralizer it is carried to. *)
Lemma twisted_char a (i : Iirr 'C_G[a]) y : y \in (a ^: G)%g ->
  exists2 phi : 'CF('C_G[y]),
    phi \is a character & forall x, phi x = twisted a 'chi_i y x.
Proof.
case/imsetP=> u uG ->.
have eqC : ('C_G[a] :^ u)%g = 'C_G[a ^ u]%g.
  by rewrite conjIg conjGid // -cent1J.
have isoC : isom 'C_G[a]%g 'C_G[a ^ u]%g (conjgm 'C_G[a]%g u).
  by rewrite -eqC; apply: conj_isom.
exists (cfIsom isoC 'chi_i); first by rewrite cfIsom_char irr_char.
move=> x; rewrite twistedE //.
have [xC | xnC] := boolP (x \in 'C_G[a ^ u]%g); last first.
  by rewrite !cfun0 //; apply: contraNN xnC; rewrite -eqC mem_conjg.
have xuC : (x ^ u^-1)%g \in 'C_G[a]%g by rewrite -mem_conjg eqC.
by rewrite -(cfIsomE isoC _ xuC) /= /conjgm conjgKV.
Qed.

(* A sum over G of a function invariant under the conjugation by a subgroup,
   orbit by orbit. *)
Lemma sum_by_orbits (K : {group gT}) (w : gT -> algC) :
  K \subset G -> {in G & K, forall y c, w (y ^ c)%g = w y} ->
  (forall y, y \in G -> #|(y ^: K)%g|%:R * w y \in Num.nat) ->
  \sum_(y in G) w y \in Num.nat.
Proof.
move=> sKG wJ Nw; rewrite (partition_big_imset (fun y => y ^: K)%g) /=.
apply: rpred_sum => _ /imsetP[y0 y0G ->].
rewrite (eq_bigl (mem (y0 ^: K)%g)) => [y|].
  apply/andP/idP => [[_ /eqP <-] | /imsetP[c cK ->]]; first exact: class_refl.
  by split; [rewrite groupJ // (subsetP sKG) | rewrite classGidl].
rewrite (eq_bigr (fun=> w y0)) => [y /imsetP[c cK ->]|]; first exact: wJ.
by rewrite sumr_const -[w y0 *+ _]mulr_natl Nw.
Qed.

(* The character-theoretic sum is a multiplicity: a natural number. *)
Lemma char_sum_nat a1 a2 a3 (i1 : Iirr 'C_G[a1]) (i2 : Iirr 'C_G[a2])
    (i3 : Iirr 'C_G[a3]) :
  char_sum a1 a2 a3 'chi_i1 'chi_i2 'chi_i3 \in Num.nat.
Proof.
pose K := 'C_G[a3]%G.
pose F y x := twisted a1 'chi_i1 y x * twisted a2 'chi_i2 (y^-1 * a3)%g x
              * ('chi_i3 x)^*.
pose w y := #|K|%:R^-1 * \sum_(x in G) F y x.
have -> : char_sum a1 a2 a3 'chi_i1 'chi_i2 'chi_i3 = \sum_(y in G) w y.
  by rewrite /char_sum exchange_big mulr_sumr.
apply: (@sum_by_orbits K); first exact: subsetIl.
  move=> y c yG /setIP[cG ca3]; rewrite /w -[in LHS](sumJ _ cG).
  congr (_ * _); apply: eq_bigr => x _; rewrite /F.
  have /eqP {1}<- : (a3 ^ c)%g == a3 by rewrite -cent1_conj.
  by rewrite -conjVg -conjMg !twistedJ // cfunJ // in_setI cG.
move=> y yG; pose D := 'C_K[y]%G.
have sDK : D \subset K by apply: subsetIl.
have sDG : D \subset G by apply: subset_trans sDK (subsetIl _ _).
have -> : #|(y ^: K)%g|%:R * w y = #|D|%:R^-1 * \sum_(x in D) F y x.
  rewrite /w mulrA; congr (_ * _).
    rewrite -index_cent1 -(Lagrange sDK) natrM invfM mulrC mulfVK //.
    by rewrite pnatr_eq0 -lt0n indexg_gt0.
  rewrite (bigID (mem D)) /= [X in _ + X]big1 ?addr0 => [x /andP[xG xnD]|].
    move: xnD; rewrite !in_setI xG /= negb_and => /orP[xnC | xnC].
      by rewrite /F [X in X^*]cfun0 ?conjC0 ?mulr0 // in_setI xG.
    by rewrite /F [X in X * _ * _]twisted_comm ?mul0r // in_setI xG.
  by apply: eq_bigl => x; rewrite andb_idl // => /(subsetP sDG).
have [y1 | yn1] := boolP (y \in (a1 ^: G)%g); last first.
  by rewrite big1 ?mulr0 ?rpred0 // => x _; rewrite /F twisted_out ?mul0r.
have [y2 | yn2] := boolP ((y^-1 * a3)%g \in (a2 ^: G)%g); last first.
  rewrite big1 ?mulr0 ?rpred0 // => x _.
  by rewrite /F [X in _ * X * _]twisted_out ?mulr0 ?mul0r.
have [phi1 Nphi1 phi1E] := twisted_char i1 y1.
have [phi2 Nphi2 phi2E] := twisted_char i2 y2.
have sD1 : D \subset 'C_G[y]%g by rewrite subsetI sDG; apply: subsetIr.
have sD2 : D \subset 'C_G[y^-1 * a3]%g.
  rewrite subsetI sDG; apply/subsetP=> x /setIP[/setIP[_ xa3] xy].
  by rewrite cent1C groupM ?groupV // cent1C.
have -> : #|D|%:R^-1 * \sum_(x in D) F y x
          = '['Res[D] phi1 * 'Res[D] phi2, 'Res[D] 'chi_i3].
  rewrite cfdotE; congr (_ * _); apply: eq_bigr => x xD.
  by rewrite /F cfunE !cfResE // phi1E phi2E.
by rewrite Cnat_cfdot_char ?rpredM ?cfRes_char ?irr_char.
Qed.

Lemma basis_keys : _basis H = [seq key_object p | p <- keys].
Proof.
rewrite /keys map_allpairs /H /init /=; congr flatten.
apply: eq_map => a; rewrite /irreducible_characters /key_object /centralizer /=.
by rewrite -{1}(map_tnth_enum (irr 'C_G[a])) -!map_comp.
Qed.

Lemma keys_uniq : uniq keys.
Proof.
apply: allpairs_uniq_dep => [|a _|p q _ _ /=]; first exact: reps_uniq.
  exact: enum_uniq.
by case: p => a i; case: q => b j.
Qed.

Lemma size_keys : size keys = _rank H.
Proof. by rewrite -[_rank H]/(size (_basis H)) basis_keys size_map. Qed.

Lemma mem_keys (p : key) : (p \in keys) = (tag p \in reps).
Proof.
apply/allpairsPdep/idP => [[a [i [ain _ ->]]] // | pin].
by exists (tag p), (tagged p); rewrite mem_enum; split=> //; case: p pin.
Qed.

Lemma nth_basis k : (k < _rank H)%N ->
  nth no_object (_basis H) k = key_object (nth key_one keys k).
Proof. by move=> ltk; rewrite basis_keys (nth_map key_one) ?size_keys. Qed.

Lemma nth_keys k : (k < _rank H)%N -> tag (nth key_one keys k) \in reps.
Proof. by move=> ltk; rewrite -mem_keys mem_nth ?size_keys. Qed.

Lemma key_orthonormal (p q : key) : tag p \in reps -> tag q \in reps ->
  pair_dot (twisted (tag p) 'chi_(tagged p)) (twisted (tag q) 'chi_(tagged q))
  = (p == q)%:R.
Proof.
case: p q => [a i] [b j] /= ain bin.
have [eq_ab | ab] := eqVneq a b.
  case: b / eq_ab j bin => j _.
  by rewrite [LHS]twisted_orthonormal // eq_Tagged.
rewrite [LHS]twisted_orthogonal //; apply/esym/eqP; rewrite pnatr_eq0 eqb0.
by apply: contraNN ab => /eqP/(congr1 tag) /= ->.
Qed.

Lemma s_ij_key k r : (k < _rank H)%N -> (r < _rank H)%N ->
  s_ij H k r true true
  = s_val G (key_object (nth key_one keys k))
      (key_object (nth key_one keys r)) true.
Proof. by move=> ltk ltr; rewrite s_ijE !nth_basis. Qed.

(* The rows of the matrix of the s_ij(unitary=True) are orthonormal. *)
Lemma s_ij_unitary k k' : (k < _rank H)%N -> (k' < _rank H)%N ->
  \sum_(r < _rank H) s_ij H k r true true * (s_ij H k' r true true)^*
  = (k == k')%:R.
Proof.
move=> ltk ltk'.
pose F x := s_val G (key_object (nth key_one keys k)) x true
            * (s_val G (key_object (nth key_one keys k')) x true)^*.
rewrite (eq_bigr (fun r : 'I_(_rank H) => F (nth no_object (_basis H) r)))
  => [r _|]; first by rewrite !s_ijE !nth_basis.
rewrite (big_basis F) /F s_val_unitary ?nth_keys //.
by rewrite key_orthonormal ?nth_keys // nth_uniq ?size_keys ?keys_uniq.
Qed.

(* The index of the dual object: its row of the S-matrix is the conjugate
   row. *)
Lemma dual_index k : (k < _rank H)%N ->
  exists2 kd, (kd < _rank H)%N
    & forall r, (r < _rank H)%N ->
        s_ij H kd r true true = (s_ij H k r true true)^*.
Proof.
move=> ltk; move: (nth_keys ltk) (fun r => @s_ij_key k r ltk).
case: (nth key_one keys k) => a i /= ain sE.
have [a' a'in [i' eq_tw]] := dual_object i ain.
pose q : key := Tagged (fun a => Iirr 'C_G[a]) i'.
have qin : q \in keys by rewrite mem_keys.
have ltq : (index q keys < _rank H)%N by rewrite -size_keys index_mem.
exists (index q keys) => // r ltr; rewrite sE // s_ij_key // nth_index //.
case: (nth key_one keys r) (nth_keys ltr) => b j /= bin.
exact: s_val_dual (reps_in_G bin) eq_tw.
Qed.

Lemma s_one_neq0 r : (r < _rank H)%N -> s_ij H one r true true != 0.
Proof.
move=> ltr; rewrite s_ijE basis_one nth_basis //.
case: (nth key_one keys r) (nth_keys ltr) => b j /= bin.
rewrite s_one_val ?reps_in_G // mul1r.
by rewrite mulf_neq0 ?invr_eq0 ?neq0CG ?irr1_neq0.
Qed.

Lemma ZZ_nat (n : nat) : ZZ n%:R = Ok (Posz n).
Proof. by rewrite /ZZ natr_int pmulrn intrKfloor. Qed.

Lemma N_ijk_dual k kd j :
  (k < _rank H)%N -> (kd < _rank H)%N -> (j < _rank H)%N ->
  (forall r, (r < _rank H)%N ->
     s_ij H kd r true true = (s_ij H k r true true)^*) ->
  N_ijk H k j one = Ok (Posz (kd == j)).
Proof.
move=> ltk ltkd ltj kdE; rewrite /N_ijk.
case: existsP => [[r /eqP r0] | _].
  by have := s_one_neq0 (ltn_ord r); rewrite r0 eqxx.
rewrite -ZZ_nat; congr (ZZ _).
apply: (can_inj conjCK); rewrite rmorph_nat rmorph_sum.
rewrite -(s_ij_unitary ltkd ltj); apply: eq_bigr => r _.
by rewrite mulfK ?s_one_neq0 // rmorphM /= kdE.
Qed.

Lemma dual_loop (f : nat -> result int) (kd : nat) (s : seq nat) :
  (forall j, j \in s -> f j = Ok (Posz (kd == j))) -> kd \in s ->
  foldr (fun j rest =>
           bind (f j) (fun n => if 0 < n then Ok (Some j) else rest))
        (Ok None) s
  = Ok (Some kd).
Proof.
elim: s => // j s IHs fE; rewrite inE /= fE ?mem_head //=.
have [-> // | _ /= kdin] := eqVneq kd j.
by apply: IHs => // j' j'in; rewrite fE // inE j'in orbT.
Qed.

(* dual(k) finds the object whose row of the S-matrix is the conjugate of the
   row of k. *)
Lemma dual_spec k : (k < _rank H)%N ->
  exists2 kd, (kd < _rank H)%N
    & dual H k = Ok (Some kd)
      /\ forall r, (r < _rank H)%N ->
           s_ij H kd r true true = (s_ij H k r true true)^*.
Proof.
move=> ltk; have [kd ltkd kdE] := dual_index ltk; exists kd => //; split=> //.
apply: dual_loop => [j|]; rewrite mem_iota add0n /= => // ltj.
exact: N_ijk_dual.
Qed.

Lemma twistP a h : h \in (a ^: G)%g ->
  twist G a h \in G /\ (a ^ twist G a h)%g = h.
Proof.
case/imsetP=> g gG ->; rewrite /twist.
set s := [seq g' <- enum G | _].
have gin : g \in s by rewrite mem_filter conjgE mulgA eqxx mem_enum.
have: last 1%g s \in s by case: s gin => // g1 s _ /=; apply: mem_last.
rewrite mem_filter mem_enum => /andP[/eqP eq_l lG]; split=> //.
by rewrite -eq_l conjgE mulgA.
Qed.

(* The inner sum of char_Nk_ij at a pair (y, y') of conjugates. *)
Lemma char_inner a1 a2 a3 (i1 : Iirr 'C_G[a1]) (i2 : Iirr 'C_G[a2])
    (i3 : Iirr 'C_G[a3]) y y' :
  y \in (a1 ^: G)%g -> y' \in (a2 ^: G)%g ->
  let t1 := twist G a1 y in
  let t2 := twist G a2 y' in
  \sum_(x in [set (t1^-1 * z * t1)%g | z in centralizer G a1]
             :&: [set (t2^-1 * z * t2)%g | z in centralizer G a2]
             :&: centralizer G a3)
     'chi_i1 (t1 * x * t1^-1)%g * 'chi_i2 (t2 * x * t2^-1)%g * ('chi_i3 x)^*
  = \sum_(x in G)
      twisted a1 'chi_i1 y x * twisted a2 'chi_i2 y' x * ('chi_i3 x)^*.
Proof.
move=> yI y'J t1 t2.
have [t1G t1E] := twistP yI; have [t2G t2E] := twistP y'J.
have cent_tw a t : t \in G ->
  [set (t^-1 * z * t)%g | z in centralizer G a] = 'C_G[a ^ t]%g.
  move=> tG; rewrite cent1J -[in RHS](conjGid tG) -conjIg.
  by apply: eq_imset => z; rewrite conjgE mulgA.
rewrite !cent_tw // -/t1 -/t2 t1E t2E.
set S := _ :&: _.
rewrite [RHS](bigID (mem S)) /= [X in _ + X]big1 ?addr0 => [x /andP[xG xnS]|].
  have [x1 | xn1] := boolP (x \in 'C_G[y]%g); last first.
    by rewrite [X in X * _ * _]twisted_comm ?mul0r.
  have [x2 | xn2] := boolP (x \in 'C_G[y']%g); last first.
    by rewrite [X in _ * X * _]twisted_comm ?mulr0 ?mul0r.
  have [x3 | xn3] := boolP (x \in 'C_G[a3]%g); last first.
    by rewrite [X in X^*]cfun0 ?conjC0 ?mulr0.
  by case/negP: xnS; apply/setIP; split=> //; apply/setIP.
apply: eq_big => [x | x xS].
  by rewrite andb_idl // => /setIP[_ /setIP[]].
by rewrite -{1}t1E -{1}t2E !twistedE // !conjgE !invgK !mulgA.
Qed.

Lemma char_Nk_ijE i j k :
  char_Nk_ij H i j k
  = char_val G (nth no_object (_basis H) i) (nth no_object (_basis H) j)
      (nth no_object (_basis H) k).
Proof. by []. Qed.

Lemma char_valE a1 a2 a3 (i1 : Iirr 'C_G[a1]) (i2 : Iirr 'C_G[a2])
    (i3 : Iirr 'C_G[a3]) :
  a1 \in G -> a3 \in G ->
  char_val G (SimpleObject a1 'chi_i1) (SimpleObject a2 'chi_i2)
    (SimpleObject a3 'chi_i3)
  = char_sum a1 a2 a3 'chi_i1 'chi_i2 'chi_i3.
Proof.
move=> a1G a3G; rewrite /char_val /conjugacy_class /=.
pose E y := \sum_(x in G) twisted a1 'chi_i1 y x
               * twisted a2 'chi_i2 (y^-1 * a3)%g x * ('chi_i3 x)^*.
have E0 y : ~~ ((y \in (a1 ^: G)%g) && ((y^-1 * a3)%g \in (a2 ^: G)%g)) ->
  E y = 0.
  rewrite negb_and => /orP[] yn; apply: big1 => x _.
    by rewrite twisted_out ?mul0r.
  by rewrite [X in _ * X * _]twisted_out ?mulr0 ?mul0r.
have -> : char_sum a1 a2 a3 'chi_i1 'chi_i2 'chi_i3
          = #|'C_G[a3]%g|%:R^-1 * \sum_(y in G) E y.
  by rewrite /char_sum exchange_big.
case: ifPn => [a3nIJ | _].
  rewrite big1 ?mulr0 // => y _; apply: E0; apply: contraNN a3nIJ.
  by case/andP=> yI yJ; apply/imset2P; exists y (y^-1 * a3)%g; rewrite ?mulKVg.
congr (_ * _).
  rewrite -(card_class_cent a3G) natrM invfM mulrCA divff ?mulr1 //.
  by rewrite pnatr_eq0 -lt0n; apply/card_gt0P; exists a3; apply: class_refl.
rewrite (reindex_onto (fun y => (y, (y^-1 * a3)%g)) fst) /=.
  by case=> y y' /= /andP[_ /eqP <-]; rewrite mulKg.
rewrite (eq_bigl (fun y => (y \in (a1 ^: G)%g)
                           && ((y^-1 * a3)%g \in (a2 ^: G)%g))) => [y|].
  by rewrite in_setX mulKVg !eqxx !andbT.
rewrite (eq_bigr E) => [y /andP[yI yJ]|]; first exact: char_inner.
rewrite [RHS](bigID (fun y => (y \in (a1 ^: G)%g)
                              && ((y^-1 * a3)%g \in (a2 ^: G)%g))) /=.
rewrite [X in _ + X]big1 ?addr0 => [y /andP[_]|]; first exact: E0.
apply: eq_bigl => y; rewrite [RHS]andb_idl // => /andP[/imsetP[g gG ->] _].
by rewrite groupJ.
Qed.

(* The sum of N_ijk(i, j, dual(k)) is the sum of char_Nk_ij(i, j, k). *)
Lemma verlinde_char_sum i j k kd :
  (i < _rank H)%N -> (j < _rank H)%N -> (k < _rank H)%N ->
  (forall r, (r < _rank H)%N ->
     s_ij H kd r true true = (s_ij H k r true true)^*) ->
  \sum_(r < _rank H)
     s_ij H i r true true * s_ij H j r true true * s_ij H kd r true true
     / s_ij H one r true true
  = char_Nk_ij H i j k.
Proof.
move=> lti ltj ltk kdE; rewrite char_Nk_ijE !nth_basis //.
pose F x := s_val G (key_object (nth key_one keys i)) x true
            * s_val G (key_object (nth key_one keys j)) x true
            * (s_val G (key_object (nth key_one keys k)) x true)^*
            / s_val G (SimpleObject 1%g 'chi['C_G[1]]_0) x true.
rewrite (eq_bigr (fun r : 'I_(_rank H) => F (nth no_object (_basis H) r)))
  => [r _|]; first by rewrite kdE // !s_ijE basis_one !nth_basis.
rewrite (big_basis F) /F.
case: (nth key_one keys i) (nth_keys lti) => a1 i1 /= a1in.
case: (nth key_one keys j) (nth_keys ltj) => a2 i2 /= a2in.
case: (nth key_one keys k) (nth_keys ltk) => a3 i3 /= a3in.
rewrite verlinde_conv // conv3_char_sum ?char_valE //;
  exact: reps_in_G.
Qed.


Lemma s_ij_sym k r : (k < _rank H)%N -> (r < _rank H)%N ->
  s_ij H k r true true = s_ij H r k true true.
Proof.
move=> ltk ltr; rewrite !s_ij_key //.
case: (nth key_one keys k) (nth_keys ltk) => a i /= ain.
case: (nth key_one keys r) (nth_keys ltr) => b j /= bin.
exact: s_val_sym.
Qed.

(** The matrix of the entries s_ij(x, y, unitary=True) is unitary: it is
    s_matrix(unitary=True) without its division by total_q_order(). *)
Theorem s_ij_matrix_unitary :
  let S := total_q_order H true *: s_matrix H true true in
  S *m map_mx conjC S = 1%:M.
Proof.
rewrite /s_matrix /total_q_order /coerce /= scalerA divff ?neq0CG // scale1r.
apply/matrixP=> y y'; rewrite !mxE -(s_ij_unitary (ltn_ord y) (ltn_ord y')).
by apply: eq_bigr => x _; rewrite !mxE [s_ij H x y _ _]s_ij_sym.
Qed.



Lemma s_val_unitary_flag (x y : simple_object) :
  s_val G x y false = #|G|%:R * s_val G x y true.
Proof. by rewrite /s_val div1r !mulrA. Qed.

(** The S-matrix is symmetric: s_ij(i, j) is s_ij(j, i), with every choice
    of unitary and base_coercion. *)
Theorem s_ij_symmetric (i j : 'I_(_rank H)) (unitary base_coercion : bool) :
  s_ij H i j unitary base_coercion = s_ij H j i unitary base_coercion.
Proof.
have sym : s_ij H i j true true = s_ij H j i true true by apply: s_ij_sym.
move: sym; rewrite !s_ijE; case: unitary => // sym.
by rewrite !s_val_unitary_flag sym.
Qed.

Lemma q_dimensionE k : (k < _rank H)%N ->
  q_dimension H k = #|(_elt H k ^: G)%g|%:R * _chi H k 1%g.
Proof.
move=> ltk; rewrite /q_dimension /_elt /_chi s_ijE basis_one nth_basis //.
case: (nth key_one keys k) (nth_keys ltk) => a i /= ain.
have aG := reps_in_G ain.
have nzC := neq0CG 'C_G[a]%g.
by rewrite s_val_one // -(card_class_cent aG) natrM; field.
Qed.


(* The sum of the Verlinde formula with the conjugate row in place of the
   row of the dual. *)
Lemma char_Nk_ij_verlinde i j k :
  (i < _rank H)%N -> (j < _rank H)%N -> (k < _rank H)%N ->
  char_Nk_ij H i j k
  = \sum_(r < _rank H)
      s_ij H i r true true * s_ij H j r true true
      * (s_ij H k r true true)^* / s_ij H one r true true.
Proof.
move=> lti ltj ltk; have [kd ltkd kdE] := dual_index ltk.
rewrite -(verlinde_char_sum lti ltj ltk kdE).
by apply: eq_bigr => r _; rewrite kdE.
Qed.

Lemma Nk_ijE i j k :
  (i < _rank H)%N -> (j < _rank H)%N -> (k < _rank H)%N ->
  exists2 n : nat, Nk_ij H i j k = Ok (Posz n) & char_Nk_ij H i j k = n%:R.
Proof.
move=> lti ltj ltk; have [kd ltkd [dualE kdE]] := dual_spec ltk.
have /natrP[n eq_n] : char_Nk_ij H i j k \in Num.nat.
  rewrite char_Nk_ijE !nth_basis //.
  case: (nth key_one keys i) (nth_keys lti) => a1 i1 /= a1in.
  case: (nth key_one keys j) (nth_keys ltj) => a2 i2 /= a2in.
  case: (nth key_one keys k) (nth_keys ltk) => a3 i3 /= a3in.
  by rewrite char_valE ?char_sum_nat ?reps_in_G.
exists n => //; rewrite /Nk_ij dualE /= /N_ijk.
case: existsP => [[r /eqP r0] | _].
  by have := s_one_neq0 (ltn_ord r); rewrite r0 eqxx.
by rewrite (verlinde_char_sum lti ltj ltk kdE) eq_n ZZ_nat.
Qed.

Lemma char_Nk_ij_one j k : (j < _rank H)%N -> (k < _rank H)%N ->
  char_Nk_ij H one j k = (j == k)%:R.
Proof.
move=> ltj ltk; rewrite char_Nk_ij_verlinde ?rank_gt0 //.
rewrite -(s_ij_unitary ltj ltk); apply: eq_bigr => r _.
by rewrite mulrAC [_ * s_ij H j r _ _]mulrC mulfK ?s_one_neq0.
Qed.

Lemma Nk_ij_truncn i j k :
  (i < _rank H)%N -> (j < _rank H)%N -> (k < _rank H)%N ->
  Nk_ij H i j k = Ok (Posz (Num.truncn (char_Nk_ij H i j k))).
Proof.
move=> lti ltj ltk; have [n -> ->] := Nk_ijE lti ltj ltk.
by rewrite natrK.
Qed.

Lemma product_loop (f : nat -> result int) (g : nat -> nat) (s : seq nat) :
  (forall k, k \in s -> f k = Ok (Posz (g k))) ->
  foldr (fun k rest => bind (f k) (fun n => bind rest (fun d => Ok (n :: d))))
    (Ok [::]) s
  = Ok [seq Posz (g k) | k <- s].
Proof.
elim: s => //= k s IHs fE; rewrite fE ?mem_head //= IHs // => k' k'in.
by rewrite fE // inE k'in orbT.
Qed.

Lemma product_on_basisE a b : (a < _rank H)%N -> (b < _rank H)%N ->
  product_on_basis H a b
  = Ok [seq Posz (Num.truncn (char_Nk_ij H a b k)) | k <- iota 0 (_rank H)].
Proof.
move=> lta ltb; apply: product_loop => k; rewrite mem_iota add0n /= => ltk.
exact: Nk_ij_truncn.
Qed.


Lemma char_Nk_ij_comm i j k :
  (i < _rank H)%N -> (j < _rank H)%N -> (k < _rank H)%N ->
  char_Nk_ij H i j k = char_Nk_ij H j i k.
Proof.
move=> lti ltj ltk; rewrite !char_Nk_ij_verlinde //.
by apply: eq_bigr => r _; rewrite [s_ij H i r _ _ * _]mulrC.
Qed.

(** The fusion product is commutative on the basis. *)
Theorem product_on_basis_commutative (a b : 'I_(_rank H)) :
  product_on_basis H a b = product_on_basis H b a.
Proof.
rewrite !product_on_basisE //; congr Ok; apply/eq_in_map => k.
by rewrite mem_iota add0n /= => ltk; rewrite char_Nk_ij_comm.
Qed.


(* Two basis elements with the same row of the S-matrix are the same. *)
Lemma s_ij_row_inj k k' : (k < _rank H)%N -> (k' < _rank H)%N ->
  (forall r, (r < _rank H)%N -> s_ij H k r true true = s_ij H k' r true true)
  -> k = k'.
Proof.
move=> ltk ltk' eq_row.
have: (k == k')%:R = (k == k)%:R :> algC.
  rewrite -(s_ij_unitary ltk ltk') -(s_ij_unitary ltk ltk).
  by apply: eq_bigr => r _; rewrite eq_row.
rewrite eqxx; case: eqP => // _ /eqP.
by rewrite eq_sym oner_eq0.
Qed.



(* The columns of the matrix of the s_ij(unitary=True) are orthonormal. *)
Lemma s_ij_unitary_col r r' : (r < _rank H)%N -> (r' < _rank H)%N ->
  \sum_(k < _rank H) s_ij H k r true true * (s_ij H k r' true true)^*
  = (r == r')%:R.
Proof.
move=> ltr ltr'; rewrite -(s_ij_unitary ltr ltr').
by apply: eq_bigr => k _; rewrite !(s_ij_sym (ltn_ord k)).
Qed.

(* The fusion coefficients of a triple product, through the S-matrix. *)
Lemma char_Nk_ij_triple a b c m :
  (a < _rank H)%N -> (b < _rank H)%N -> (c < _rank H)%N -> (m < _rank H)%N ->
  \sum_(k < _rank H) char_Nk_ij H a b k * char_Nk_ij H k c m
  = \sum_(r < _rank H)
      s_ij H a r true true * s_ij H b r true true * s_ij H c r true true
      * (s_ij H m r true true)^* / (s_ij H one r true true) ^+ 2.
Proof.
move=> lta ltb ltc ltm.
pose S i (r : nat) := s_ij H i r true true.
pose A (r : nat) := S a r * S b r / S one r.
pose B (r : nat) := S c r * (S m r)^* / S one r.
transitivity (\sum_(r < _rank H) \sum_(r' < _rank H)
                A r * B r' * \sum_(k < _rank H) S k r' * (S k r)^*).
  rewrite (eq_bigr (fun k : 'I_(_rank H) =>
     \sum_(r < _rank H) \sum_(r' < _rank H)
        A r * B r' * (S k r' * (S k r)^*))) => [k _|].
    rewrite !char_Nk_ij_verlinde // big_distrlr /=.
    apply: eq_bigr => r _; apply: eq_bigr => r' _.
    by rewrite /A /B /S; ring.
  rewrite exchange_big /=; apply: eq_bigr => r _.
  rewrite exchange_big /=; apply: eq_bigr => r' _.
  by rewrite mulr_sumr.
apply: eq_bigr => r _.
rewrite (bigD1 r) //= [X in _ + X]big1 ?addr0 => [r' r'nr|].
  by rewrite /S s_ij_unitary_col // val_eqE (negbTE r'nr) mulr0.
rewrite /S s_ij_unitary_col // eqxx mulr1 /A /B /S.
have nz0 := s_one_neq0 (ltn_ord r).
by field.
Qed.

(** The fusion coefficients are associative: the coefficient of m in
    (a * b) * c is its coefficient in a * (b * c). *)
Theorem char_Nk_ij_associative (a b c m : 'I_(_rank H)) :
  \sum_(k < _rank H) char_Nk_ij H a b k * char_Nk_ij H k c m
  = \sum_(k < _rank H) char_Nk_ij H b c k * char_Nk_ij H a k m.
Proof.
have -> : \sum_(k < _rank H) char_Nk_ij H b c k * char_Nk_ij H a k m
        = \sum_(k < _rank H) char_Nk_ij H b c k * char_Nk_ij H k a m.
  by apply: eq_bigr => k _; rewrite (char_Nk_ij_comm (ltn_ord a) (ltn_ord k)).
rewrite !char_Nk_ij_triple //; apply: eq_bigr => r _.
by congr (_ / _); ring.
Qed.

(* The element of a key is central in its centralizer, so in the centre of
   each irreducible character. *)
Lemma elt_cfcenter a (i : Iirr 'C_G[a]) : a \in G -> a \in ('Z('chi_i))%CF.
Proof.
move=> aG; have: a \in 'Z('C_G[a])%g.
  rewrite inE in_setI aG cent1id /=; apply/centP => x.
  by rewrite in_setI => /andP[_ /cent1P].
by rewrite -cap_cfcenter_irr => /bigcapP/(_ i isT).
Qed.

(* chi(a) / chi(1) is the value at a of a linear character. *)
Lemma ribbon_lin a (i : Iirr 'C_G[a]) : a \in G ->
  exists2 xi : 'CF('Z('chi_i)%CF),
    xi \is a linear_char & 'chi_i a / 'chi_i 1%g = xi a.
Proof.
move=> aG; have [xi Lxi resE] := cfcenter_Res 'chi_i.
exists xi => //; have := congr1 (fun f : 'CF(_) => f a) resE.
rewrite cfResE ?cfcenter_sub ?elt_cfcenter // cfunE => ->.
by rewrite mulrC mulKf ?irr1_neq0.
Qed.

Lemma ribbon_order a (i : Iirr 'C_G[a]) : a \in G ->
  ('chi_i a / 'chi_i 1%g) ^+ #[a]%g = 1.
Proof.
move=> aG; have [xi Lxi ->] := ribbon_lin i aG.
by rewrite (lin_char_unity_root Lxi) ?elt_cfcenter.
Qed.

Lemma ribbon_norm a (i : Iirr 'C_G[a]) : a \in G ->
  ('chi_i a / 'chi_i 1%g)^-1 = ('chi_i a)^* / 'chi_i 1%g.
Proof.
move=> aG; have [xi Lxi eq_xi] := ribbon_lin i aG.
rewrite -[in RHS](conj_natr (Cnat_irr1 i)) -fmorphV -rmorphM /= eq_xi.
by rewrite -(lin_charV Lxi) ?(lin_charV_conj Lxi) ?elt_cfcenter.
Qed.

Lemma ribbonE k b : (k < _rank H)%N ->
  ribbon H k b = Ok (_chi H k (_elt H k) / _chi H k 1%g).
Proof.
move=> ltk; rewrite /ribbon /coerce /= orbT /_chi /_elt nth_basis //.
by case: (nth key_one keys k) => a i /=; rewrite (negbTE (irr1_neq0 i)).
Qed.

Lemma one_in_reps : 1%g \in reps.
Proof. by case: reps_head => r ->; rewrite mem_head. Qed.

(* The sum, over the characters of a centralizer, of chi(1) chi(b). *)
Lemma sum_irr_ribbon b :
  b \in G ->
  \sum_(i < Nirr 'C_G[b]) 'chi_i 1%g * 'chi_i b
  = if b == 1%g then #|G|%:R else 0.
Proof.
move=> bG; have bC : b \in 'C_G[b]%g by rewrite in_setI bG cent1id.
rewrite (eq_bigr (fun i : Iirr 'C_G[b] => 'chi_i b * ('chi_i 1%g)^*))
  => [i _|]; first by rewrite (conj_natr (Cnat_irr1 i)) mulrC.
rewrite second_orthogonality_relation // class1G inE.
case: eqP => [-> | _]; last by rewrite mulr0n.
rewrite mulr1n; congr (_%:R); apply: eq_card => x.
by rewrite !in_setI /= !cent11T !in_setT !andbT.
Qed.

(* The sums of D_plus and D_minus, over one conjugacy class. *)
Lemma sum_gauss (F : simple_object -> algC) (f : forall a, Iirr 'C_G[a] -> algC) :
  (forall a (i : Iirr 'C_G[a]), a \in G ->
     F (SimpleObject a 'chi_i)
     = (#|G|%:R / #|'C_G[a]%g|%:R) ^+ 2 * ('chi_i 1%g * f a i)) ->
  (forall a, a \in G ->
     \sum_(i < Nirr 'C_G[a]) 'chi_i 1%g * f a i
     = if a == 1%g then #|G|%:R else 0) ->
  \sum_(k < _rank H) F (nth no_object (_basis H) k) = #|G|%:R.
Proof.
move=> FE fE; rewrite big_basis (big_reps1 one_in_reps) => [b bin bn1|].
  have bG := reps_in_G bin.
  rewrite (eq_bigr (fun i : Iirr 'C_G[b] =>
       (#|G|%:R / #|'C_G[b]%g|%:R) ^+ 2 * ('chi_i 1%g * f b i))) => [i _|].
    by rewrite FE.
  by rewrite -mulr_sumr fE // (negbTE bn1) mulr0.
rewrite (eq_bigr (fun i : Iirr 'C_G[1] => 'chi_i 1%g * f 1%g i)) => [i _|].
  rewrite FE // -[#|'C_G[1]%g|]/(#|centralizer G 1|) cent_one.
  by rewrite divff ?neq0CG // expr1n mul1r.
by rewrite fE // eqxx.
Qed.


(* The loop of twist, when one index meets the test. *)
Lemma twist_loop (P : pred nat) (f : nat -> rat) (n i : nat) :
  (i < n)%N -> P i -> (forall j, (j < n)%N -> P j -> j = i) ->
  foldr (fun k rest => if P k then Some (f k) else rest) None (iota 0 n)
  = Some (f i).
Proof.
move=> ltin Pi uniq_i.
have: (0 <= i < 0 + n)%N by rewrite add0n.
have: forall j, (0 <= j < 0 + n)%N -> P j -> j = i.
  by move=> j; rewrite add0n => /uniq_i.
elim: n 0%N {ltin uniq_i} => [|n IHn] m uniq_i /andP[lemi ltim] /=.
  by move: ltim; rewrite addn0 ltnNge lemi.
case: ifP => [Pm | Pm].
  by rewrite (uniq_i m) // leqnn addnS ltnS leq_addr.
apply: IHn => [j /andP[ltmj ltjn] | ].
  by apply: uniq_i; rewrite (ltnW ltmj) -addSnnS.
rewrite addSnnS ltim andbT ltn_neqAle lemi andbT.
by apply/eqP => eq_mi; rewrite eq_mi Pi in Pm.
Qed.

(* The value of a power of the generator of the field. *)
Lemma root_value_pow (zeta : algC) (m k : nat) :
  (1 < m)%N -> zeta ^+ m = 1 ->
  root_value zeta (root_pow (CyclotomicField_gen m) k%:Z) = zeta ^+ k.
Proof.
move=> m_gt1 zeta1; rewrite /root_value /root_pow /= modn_small // mul1r.
by rewrite modz_nat absz_nat expr_mod.
Qed.

(* What twist computes: the k of range(4 e) with zeta^k the ribbon, which is
   a multiple of 4. *)
Lemma twist_spec (zeta : algC) (x : nat) :
  (x < _rank H)%N -> (field H).-primitive_root zeta ->
  exists2 k : nat, (k < 4 * exponent G)%N
    & [/\ Element_twist H zeta x
            = Ok (Some (k%:Q / (2 * exponent G)%N%:Q)),
          _chi H x (_elt H x) / _chi H x 1%g = zeta ^+ k
        & (4 %| k)%N].
Proof.
move=> ltx prim_zeta; have e_gt0 := exponent_gt0 G.
have m_gt1 : (1 < 4 * exponent G)%N by rewrite (@leq_trans 4) // leq_pmulr.
have zeta1 : zeta ^+ (4 * exponent G)%N = 1 := prim_expr_order prim_zeta.
pose rib := _chi H x (_elt H x) / _chi H x 1%g.
have ribe : rib ^+ exponent G = 1.
  rewrite /rib /_chi /_elt nth_basis //.
  case: (nth key_one keys x) (nth_keys ltx) => a i /= ain.
  have aG := reps_in_G ain.
  have /dvdnP[q ->] : (#[a]%g %| exponent G)%N by rewrite dvdn_exponent.
  by rewrite mulnC exprM ribbon_order // expr1n.
have rib1 : rib ^+ (4 * exponent G)%N = 1 by rewrite mulnC exprM ribe expr1n.
have [[k ltk] /= ribE] := prim_rootP prim_zeta rib1.
exists k => //.
have valE j : root_value zeta (root_pow (CyclotomicField_gen (field H)) j%:Z)
              = zeta ^+ j by apply: root_value_pow.
split=> //.
  rewrite /Element_twist ribbonE //= -/rib; congr (Ok _).
  apply: (@twist_loop
            (fun j => root_value zeta
                        (root_pow (CyclotomicField_gen (field H)) j%:Z) == rib))
    => // [|j ltj]; rewrite valE ribE ?eqxx //.
  rewrite (eq_prim_root_expr prim_zeta) => /eqP.
  by rewrite !modn_small.
have: (4 * exponent G %| k * exponent G)%N.
  by rewrite (prim_order_dvd prim_zeta) exprM -ribE ribe.
by rewrite dvdn_pmul2r.
Qed.

(** twist() never returns None: it returns k / (2 e) for one k in range(4 e),
    e the exponent of G, and root_of_unity of that twist is the ribbon. *)
Theorem twist_root_of_unity (zeta : algC) (x : 'I_(_rank H)) :
  (field H).-primitive_root zeta ->
  exists2 k : nat, (k < 4 * _cyclotomic_order H)%N &
    exists z : cyclotomic_root,
      [/\ Element_twist H zeta x
            = Ok (Some (k%:Q / (2 * _cyclotomic_order H)%N%:Q)),
          root_of_unity H (k%:Q / (2 * _cyclotomic_order H)%N%:Q) true = Ok z
        & ribbon H x true = Ok (root_value zeta z)].
Proof.
move=> prim_zeta; have e_gt0 := exponent_gt0 G.
have m_gt1 : (1 < 4 * exponent G)%N by rewrite (@leq_trans 4) // leq_pmulr.
have zeta1 : zeta ^+ (4 * exponent G)%N = 1 := prim_expr_order prim_zeta.
have [k ltk [twistE ribE _]] := twist_spec (ltn_ord x) prim_zeta.
exists k => //; exists (root_pow (CyclotomicField_gen (field H)) k%:Z).
split=> //; last by rewrite ribbonE // root_value_pow // ribE.
rewrite /root_of_unity /=.
have nzE : (exponent G)%:Q != 0 by rewrite pnatr_eq0 -lt0n.
have -> : 2%:Q * (k%:Q / (2 * exponent G)%N%:Q) * (exponent G)%:Q = k%:Q.
  by rewrite PoszM intrM; field.
by rewrite rpred_int /= numq_int.
Qed.

(* A loop that returns False at the first element failing a test, and goes on
   to the rest of the computation otherwise. *)
Lemma loop_all (s : seq nat) (step : nat -> result bool -> result bool)
    (p : pred nat) :
  (forall k rest, k \in s -> step k rest = if p k then rest else Ok false) ->
  forall rest, foldr step rest s = if all p s then rest else Ok false.
Proof.
elim: s => //= k s IHs stepE rest; rewrite stepE ?mem_head //.
rewrite IHs => [k' rest' k'in|]; first by rewrite stepE // inE k'in orbT.
by case: (p k).
Qed.

Lemma all_iota_ord (n : nat) (p : pred nat) :
  all p (iota 0 n) = [forall k : 'I_n, p k].
Proof.
apply/allP/forallP => [all_p k | all_p k].
  by apply: all_p; rewrite mem_iota add0n /=.
by rewrite mem_iota add0n /= => ltk; apply: (all_p (Ordinal ltk)).
Qed.

Lemma is_multiplicity_freeE :
  is_multiplicity_free H
  = Ok [forall i : 'I_(_rank H), forall j : 'I_(_rank H),
          forall k : 'I_(_rank H), char_Nk_ij H i j k <= 1].
Proof.
pose v i j k := \sum_(r < _rank H)
    s_ij H i r true true * s_ij H j r true true * s_ij H k r true true
    / s_ij H one r true true.
have vE i j k : (i < _rank H)%N -> (j < _rank H)%N -> (k < _rank H)%N ->
    exists2 kd, (kd < _rank H)%N & v i j k = char_Nk_ij H i j kd.
  move=> lti ltj ltk; have [kd ltkd kdE] := dual_index ltk; exists kd => //.
  rewrite char_Nk_ij_verlinde //.
  by apply: eq_bigr => r _; rewrite kdE // conjCK.
have vE' i j k : (i < _rank H)%N -> (j < _rank H)%N -> (k < _rank H)%N ->
    exists2 kd, (kd < _rank H)%N & char_Nk_ij H i j k = v i j kd.
  move=> lti ltj ltk; have [kd ltkd kdE] := dual_index ltk; exists kd => //.
  rewrite char_Nk_ij_verlinde //.
  by apply: eq_bigr => r _; rewrite kdE.
have NE i j k : (i < _rank H)%N -> (j < _rank H)%N -> (k < _rank H)%N ->
    N_ijk H i j k = Ok (Posz (Num.truncn (v i j k)))
    /\ (Num.truncn (v i j k))%:R = v i j k.
  move=> lti ltj ltk; have [kd ltkd eq_v] := vE i j k lti ltj ltk.
  have [n _ eq_n] := Nk_ijE lti ltj ltkd.
  rewrite eq_v eq_n natrK; split=> //.
  rewrite /N_ijk; case: existsP => [[r /eqP r0] | _].
    by have := s_one_neq0 (ltn_ord r); rewrite r0 eqxx.
  by rewrite -/(v i j k) eq_v eq_n ZZ_nat.
pose p3 i j k := (Num.truncn (v i j k) <= 1)%N.
pose p2 i j := all (p3 i j) (iota 0 (_rank H)).
pose p1 i := all (p2 i) (iota 0 (_rank H)).
have -> : is_multiplicity_free H = Ok (all p1 (iota 0 (_rank H))).
  rewrite /is_multiplicity_free (@loop_all _ _ p1) => [i rest|].
    rewrite mem_iota add0n /= => lti.
    rewrite (@loop_all _ _ (p2 i)) => [j rest'|] //.
    rewrite mem_iota add0n /= => ltj.
    rewrite (@loop_all _ _ (p3 i j)) => [k rest''|] //.
    rewrite mem_iota add0n /= => ltk.
    have [-> _] /= := NE i j k lti ltj ltk.
    by rewrite (ltz_nat 1) /p3 ltnNge; case: (_ <= _)%N.
  by case: (all _ _).
congr (Ok _); rewrite all_iota_ord.
apply/forallP/forallP => [all_v i | all_c i].
  apply/forallP => j; apply/forallP => k.
  have [kd ltkd ->] := vE' i j k (ltn_ord i) (ltn_ord j) (ltn_ord k).
  have:= all_v i; rewrite /p1 all_iota_ord => /forallP/(_ j).
  rewrite /p2 all_iota_ord => /forallP/(_ (Ordinal ltkd)); rewrite /p3 /=.
  have [_ eq_n] := NE i j kd (ltn_ord i) (ltn_ord j) ltkd.
  by rewrite -(ler_nat algC) eq_n.
rewrite /p1 all_iota_ord; apply/forallP => j.
rewrite /p2 all_iota_ord; apply/forallP => k; rewrite /p3.
have [kd ltkd eq_v] := vE i j k (ltn_ord i) (ltn_ord j) (ltn_ord k).
have:= all_c i => /forallP/(_ j)/forallP/(_ (Ordinal ltkd)) /=.
have [_ eq_n] := NE i j k (ltn_ord i) (ltn_ord j) (ltn_ord k).
by rewrite -eq_v -(ler_nat algC) eq_n.
Qed.


(* The value of an integer power of the generator of the field. *)
Lemma root_value_powz (zeta : algC) (m : nat) (n : int) :
  (1 < m)%N -> zeta ^+ m = 1 ->
  root_value zeta (root_pow (CyclotomicField_gen m) n) = zeta ^ n.
Proof.
move=> m_gt1 zeta1; rewrite /root_value /root_pow /= modn_small // mul1r.
have m_n0 : m%:Z != 0 by rewrite eqz_nat -lt0n ltnW.
have zeta_n0 : zeta != 0.
  by apply/eqP => z0; move/eqP: zeta1; rewrite z0 expr0n eqn0Ngt ltnW // eq_sym oner_eq0.
rewrite exprnP gez0_abs ?modz_ge0 // {2}(divz_eq n m%:Z) expfzDr //.
by rewrite [(_ * m%:Z)%R]mulrC -exprz_exp -[zeta ^ m%:Z]exprnP zeta1 exp1rz mul1r.
Qed.

Lemma ribbon_neq0 x : (x < _rank H)%N ->
  _chi H x (_elt H x) / _chi H x 1%g != 0.
Proof.
move=> ltx; rewrite /_chi /_elt nth_basis //.
case: (nth key_one keys x) (nth_keys ltx) => a i /= ain.
have := ribbon_order i (reps_in_G ain).
by case: eqP => // ->; rewrite expr0n; case: (#[a]%g) (order_gt0 a) => // n _ /eqP; rewrite eq_sym oner_eq0.
Qed.

Lemma s_one_false_neq0 z : (z < _rank H)%N -> s_ij H one z false true != 0.
Proof.
move=> ltz; rewrite s_ijE basis_one nth_basis //.
case: (nth key_one keys z) (nth_keys ltz) => b j /= bin.
rewrite s_one_val ?reps_in_G //.
by rewrite !mulf_neq0 ?invr_eq0 ?neq0CG ?irr1_neq0.
Qed.

Lemma sum_results_ok (terms : seq (result algC)) :
  all succeeds terms -> succeeds (sum_results terms).
Proof.
rewrite /sum_results; move: (0 : algC).
by elim: terms => [|[v|e] terms IHterms] a //= /IHterms.
Qed.

Lemma r_matrix_term_ok i k x y z :
  (i < _rank H)%N -> (x < _rank H)%N -> (y < _rank H)%N -> (z < _rank H)%N ->
  succeeds (r_matrix_term H i k x y z).
Proof.
move=> lti ltx lty ltz; rewrite /r_matrix_term !ribbonE //= /divide.
have nz : _chi H i (_elt H i) / _chi H i 1%g
          * (_chi H x (_elt H x) / _chi H x 1%g) ^+ 2 != 0.
  by rewrite mulf_neq0 ?expf_neq0 ?ribbon_neq0.
by rewrite (negbTE nz) /= (negbTE (s_one_false_neq0 ltz)).
Qed.

Lemma all_flatten_map (S T : Type) (p : pred T) (f : S -> seq T) (s : seq S) :
  all p (flatten [seq f x | x <- s]) = all (fun x => all p (f x)) s.
Proof. by elim: s => //= x s <-; rewrite all_cat. Qed.

Lemma bind_Ok (A B : Type) (a : A) (f : A -> result B) : bind (Ok a) f = f a.
Proof. by []. Qed.


Lemma q_dimension_unitary k :
  q_dimension H k = #|G|%:R * s_ij H k one true true.
Proof. by rewrite /q_dimension !s_ijE s_val_unitary_flag. Qed.

Lemma s_one_one : s_ij H one one true true = #|G|%:R^-1.
Proof.
rewrite s_ijE basis_one s_one_val // mul1r irr0 cfun11.
by rewrite -[#|'C_G[1]%g|]/(#|centralizer G 1|) cent_one div1r.
Qed.

Lemma q_dimension_product i j : (i < _rank H)%N -> (j < _rank H)%N ->
  \sum_(k < _rank H) char_Nk_ij H i j k * q_dimension H k
  = q_dimension H i * q_dimension H j.
Proof.
move=> lti ltj; pose S a (r : nat) := s_ij H a r true true.
pose A (r : nat) := S i r * S j r / S one r.
transitivity (\sum_(r < _rank H)
                #|G|%:R * A r * \sum_(k < _rank H) S k one * (S k r)^*).
  rewrite (eq_bigr (fun k : 'I_(_rank H) =>
     \sum_(r < _rank H) #|G|%:R * A r * (S k one * (S k r)^*))) => [k _|].
    rewrite char_Nk_ij_verlinde // q_dimension_unitary mulr_suml.
    by apply: eq_bigr => r _; rewrite /A /S; ring.
  rewrite exchange_big /=; apply: eq_bigr => r _.
  by rewrite mulr_sumr.
rewrite (bigD1 (Ordinal rank_gt0)) //= [X in _ + X]big1 ?addr0 => [r rn0|].
  rewrite -val_eqE /= in rn0.
  by rewrite /S s_ij_unitary_col ?rank_gt0 // eq_sym (negbTE rn0) mulr0.
rewrite /S s_ij_unitary_col ?rank_gt0 // eqxx mulr1 /A /S.
rewrite !q_dimension_unitary.
rewrite -[s_ij H i 0 _ _]/(s_ij H i one true true).
rewrite -[s_ij H j 0 _ _]/(s_ij H j one true true).
rewrite -[s_ij H one 0 _ _]/(s_ij H one one true true) s_one_one.
have nzG := neq0CG G.
by field.
Qed.


(** The double of an abelian group is multiplicity free:
    is_multiplicity_free() returns True. *)
Theorem is_multiplicity_free_abelian :
  abelian G -> is_multiplicity_free H = Ok true.
Proof.
move=> abG; rewrite is_multiplicity_freeE; congr (Ok _).
have d1 k : (k < _rank H)%N -> q_dimension H k = 1.
  move=> ltk; rewrite q_dimensionE // /_elt /_chi nth_basis //.
  case: (nth key_one keys k) (nth_keys ltk) => a i /= ain.
  have aG := reps_in_G ain.
  rewrite (abelian_classP _ abG) // cards1 mul1r.
  have abC : abelian 'C_G[a] := abelianS (subsetIl _ _) abG.
  exact: lin_char1 (char_abelianP _ abC i).
apply/forallP => i; apply/forallP => j; apply/forallP => k.
have := q_dimension_product (ltn_ord i) (ltn_ord j).
rewrite !d1 // mulr1 => sum1.
rewrite -sum1 (bigD1 k) //= d1 // mulr1 lerDl sumr_ge0 // => k' _.
rewrite d1 // mulr1.
by have [n _ ->] := Nk_ijE (ltn_ord i) (ltn_ord j) (ltn_ord k'); apply: ler0n.
Qed.


End Facts.

Lemma root_of_unity_angle (e : nat) (r : rat) :
  (0 < e)%N -> 2%:Q * r * e%:Q \is a Num.int ->
  exists t : int,
    r = angle (root_pow (CyclotomicField_gen (4 * e))
                 (numq (2%:Q * r * e%:Q))) + 2%:Q * t%:Q.
Proof.
move=> e_gt0; set n := 2%:Q * r * e%:Q => /intrP[z nz].
have e4_gt1 : (1 < 4 * e)%N by rewrite (@leq_trans 4) // leq_pmulr.
have e4_gt0 : (0 : int) < (4 * e)%:Z by rewrite ltz_nat ltnW.
exists (z %/ (4 * e)%:Z)%Z.
rewrite /angle /root_pow /= modn_small // nz numq_int mul1r.
rewrite gez0_abs ?modz_ge0 ?lt0r_neq0 //.
have nzE : e%:Q != 0 by rewrite pnatr_eq0 -lt0n.
have rE : r = z%:Q / (2 * e%:Q) by rewrite -nz /n; field.
rewrite rE {1}(divz_eq z (4 * e)%:Z) PoszM rmorphD !rmorphM /=.
by field.
Qed.

(** C5: root_of_unity(r) raises ValueError("not a root of unity in the field")
    exactly when n = 2 r e is not an integer, e the exponent of G; otherwise
    it returns the n-th power of the generator of CyclotomicField(4 e), which
    is e^{i pi r}: the angle of what it returns differs from r by an even
    integer. *)
Theorem root_of_unity_spec (G : {group gT}) (reps : seq gT) (r : rat)
    (base_coercion : bool) :
  let H := init G reps in
  let n := 2%:Q * r * (exponent G)%:Q in
  (root_of_unity H r base_coercion
     = Raise (ValueError "not a root of unity in the field")
   <-> n \isn't a Num.int)
  /\ (n \is a Num.int ->
      exists2 z, root_of_unity H r base_coercion = Ok z
        & z = root_pow (CyclotomicField_gen (4 * exponent G)) (numq n)
          /\ exists t : int, r = angle z + 2%:Q * t%:Q).
Proof.
rewrite /root_of_unity /= orbT; split.
  by case: ifP.
move=> n_int; rewrite n_int /=; eexists; first by [].
by split=> //; apply: root_of_unity_angle (exponent_gt0 G) n_int.
Qed.

End Fusion.

Lemma C2_repsP : class_representatives C2 C2_reps.
Proof.
have clE (x : 'Z_2) : (x ^: C2)%g = [set x].
  by apply: (abelian_classP _ (FinRing.zmod_abelian C2)); rewrite inE.
apply/andP; split=> //; apply: uniq_perm; rewrite ?enum_uniq //.
  by rewrite /= !clE inE andbT (inj_eq set1_inj).
move=> C; rewrite mem_enum /= !clE !inE.
apply/idP/imsetP => [/orP[] /eqP-> | [x _ ->]].
- by exists 1%g; rewrite ?inE ?clE.
- by exists Zp1; rewrite ?inE ?clE.
rewrite clE !(inj_eq set1_inj).
by case: x => [[|[|m]] lt] //=; rewrite -!val_eqE.
Qed.

Lemma card_C2 : #|C2| = 2%N.
Proof. by rewrite cardsT card_ord. Qed.

(** C1 fails on the code: for the Drinfeld double of the group of order two,
    s_matrix(unitary=True) times its entrywise conjugate is not the identity
    matrix; the entry of the unit object of the product is 1/4. *)
Theorem s_matrix_unitary_C2 :
  s_matrix (init C2 C2_reps) true true
    *m map_mx conjC (s_matrix (init C2 C2_reps) true true) != 1%:M.
Proof.
apply/eqP => /matrixP /(_ (Ordinal (rank_gt0 C2_repsP)) _).
move/(_ (Ordinal (rank_gt0 C2_repsP))).
rewrite (s_matrix_unitary_00 C2_repsP) // mxE eqxx card_C2 /= => /eqP.
by rewrite invr_eq1 expr2 -natrM pnatr_eq1.
Qed.


Lemma s_matrix_not_unitary_C2 :
  (class_representatives C2 C2_reps /\ (1 < #|C2|)%N)
  /\ s_matrix (init C2 C2_reps) true true
       *m map_mx conjC (s_matrix (init C2 C2_reps) true true) != 1%:M.
Proof.
have C2_gt1 : (1 < #|C2|)%N by rewrite card_C2.
split; first by split; [exact: C2_repsP | ].
exact: (s_matrix_not_unitary C2_repsP C2_gt1).
Defined.


Lemma s_ij_matrix_unitary_C2 :
  class_representatives C2 C2_reps
  /\ (total_q_order (init C2 C2_reps) true
        *: s_matrix (init C2 C2_reps) true true)
       *m map_mx conjC (total_q_order (init C2 C2_reps) true
                        *: s_matrix (init C2 C2_reps) true true)
     = 1%:M.
Proof.
split; first exact: C2_repsP.
exact: (s_ij_matrix_unitary C2_repsP).
Defined.


Lemma s_ij_symmetric_C2 :
  class_representatives C2 C2_reps
  /\ s_ij (init C2 C2_reps) (Ordinal (rank_gt0 C2_repsP))
       (Ordinal (rank_gt0 C2_repsP)) true true
     = s_ij (init C2 C2_reps) (Ordinal (rank_gt0 C2_repsP))
         (Ordinal (rank_gt0 C2_repsP)) true true.
Proof.
split; first exact: C2_repsP.
exact: (s_ij_symmetric C2_repsP).
Defined.



Lemma product_on_basis_commutative_C2 :
  class_representatives C2 C2_reps
  /\ product_on_basis (init C2 C2_reps) (Ordinal (rank_gt0 C2_repsP))
       (Ordinal (rank_gt0 C2_repsP))
     = product_on_basis (init C2 C2_reps) (Ordinal (rank_gt0 C2_repsP))
         (Ordinal (rank_gt0 C2_repsP)).
Proof.
split; first exact: C2_repsP.
exact: (product_on_basis_commutative C2_repsP).
Defined.




Lemma char_Nk_ij_associative_C2 :
  class_representatives C2 C2_reps
  /\ \sum_(k < _rank (init C2 C2_reps))
        char_Nk_ij (init C2 C2_reps) (Ordinal (rank_gt0 C2_repsP))
          (Ordinal (rank_gt0 C2_repsP)) k
        * char_Nk_ij (init C2 C2_reps) k (Ordinal (rank_gt0 C2_repsP))
            (Ordinal (rank_gt0 C2_repsP))
     = \sum_(k < _rank (init C2 C2_reps))
         char_Nk_ij (init C2 C2_reps) (Ordinal (rank_gt0 C2_repsP))
           (Ordinal (rank_gt0 C2_repsP)) k
         * char_Nk_ij (init C2 C2_reps) (Ordinal (rank_gt0 C2_repsP)) k
             (Ordinal (rank_gt0 C2_repsP)).
Proof.
split; first exact: C2_repsP.
exact: (char_Nk_ij_associative C2_repsP).
Defined.


(* The field of the double of the group of order two has a generator. *)
Lemma C2_field_gt0 : (0 < field (init C2 C2_reps))%N.
Proof. by rewrite /field /= muln_gt0 exponent_gt0. Qed.

Lemma twist_root_of_unity_C2 :
  (class_representatives C2 C2_reps
   /\ (field (init C2 C2_reps)).-primitive_root
        (sval (C_prim_root_exists C2_field_gt0)))
  /\ exists2 k : nat, (k < 4 * _cyclotomic_order (init C2 C2_reps))%N &
       exists z : cyclotomic_root,
         [/\ Element_twist (init C2 C2_reps)
               (sval (C_prim_root_exists C2_field_gt0))
               (Ordinal (rank_gt0 C2_repsP))
             = Ok (Some (k%:Q
                         / (2 * _cyclotomic_order (init C2 C2_reps))%N%:Q)),
             root_of_unity (init C2 C2_reps)
               (k%:Q / (2 * _cyclotomic_order (init C2 C2_reps))%N%:Q) true
             = Ok z
           & ribbon (init C2 C2_reps) (Ordinal (rank_gt0 C2_repsP)) true
             = Ok (root_value (sval (C_prim_root_exists C2_field_gt0)) z)].
Proof.
have prim := svalP (C_prim_root_exists C2_field_gt0).
split; first by split; [exact: C2_repsP | exact: prim].
exact: (twist_root_of_unity C2_repsP (Ordinal (rank_gt0 C2_repsP)) prim).
Defined.




Lemma is_multiplicity_free_abelian_C2 :
  (class_representatives C2 C2_reps /\ abelian C2)
  /\ is_multiplicity_free (init C2 C2_reps) = Ok true.
Proof.
split; first by split; [exact: C2_repsP | exact: FinRing.zmod_abelian].
exact: (is_multiplicity_free_abelian C2_repsP (FinRing.zmod_abelian C2)).
Defined.


End FusionDouble.

(* ------------------------------------------------------------------------ *)
(* sage/combinat/crystals/subcrystal.py                                      *)
(* ------------------------------------------------------------------------ *)

Module Subcrystal.

Section Subcrystal.

(* The ambient crystal: its elements, its index set and its operators, which
   return None where the operator is not defined. *)
Variables (A : eqType) (I : Type).
Variables (ambient_e ambient_f : A -> I -> option A).

(* The argument contained: nothing, a frozenset or a function. *)
Inductive contained_spec :=
  | ContainedNone
  | ContainedSet of seq A
  | ContainedFun of (A -> bool).

Record subcrystal := Build { _contained : contained_spec }.

(* Subcrystal.Element, an ElementWrapper. *)
Record element := Element { parent : subcrystal; value : A }.

Definition _containing (S : subcrystal) (x : A) : bool :=
  match _contained S with
  | ContainedNone => true
  | ContainedSet s => x \in s
  | ContainedFun p => p x
  end.

Definition e (x : element) (i : I) : option element :=
  let ret := ambient_e (value x) i in
  match ret with
  | None => None
  | Some r =>
      if ~~ _containing (parent x) r then None
      else Some (Element (parent x) r)
  end.

Definition f (x : element) (i : I) : option element :=
  let ret := ambient_f (value x) i in
  match ret with
  | None => None
  | Some r =>
      if ~~ _containing (parent x) r then None
      else Some (Element (parent x) r)
  end.

(* How the result res of an operator of S follows the answer ret of the
   ambient operator: None exactly when ret is None or outside S, the wrapped
   ret otherwise, and so always an element of S with its value in S. *)
Definition induced (S : subcrystal) (ret : option A) (res : option element) :
    Prop :=
  [/\ res = None
      <-> (ret = None \/ exists2 r, ret = Some r & ~~ _containing S r),
      forall r, ret = Some r -> _containing S r -> res = Some (Element S r)
    & forall y, res = Some y -> parent y = S /\ _containing S (value y)].

Lemma inducedP (S : subcrystal) (ret : option A) :
  induced S ret
    (if ret is Some r then
       if ~~ _containing S r then None else Some (Element S r)
     else None).
Proof.
rewrite /induced; case: ret => [r|]; last by split=> //; split=> // _; left.
case Sr: (_containing S r) => /=; split=> //.
- by split=> // -[|[r' [<-]]] //; rewrite Sr.
- by move=> r' [<-].
- by move=> y [<-].
- by split=> // _; right; exists r; rewrite ?Sr.
- by move=> r' [<-]; rewrite Sr.
Qed.

(** C9: x.e(i) and x.f(i) are None exactly when the ambient operator returns
    None or a value outside the containment predicate of the parent S of x,
    and otherwise wrap the ambient result; so what they return is an element
    of S whose value is contained in S. *)
Theorem subcrystal_operators_closed (x : element) (i : I) :
  induced (parent x) (ambient_e (value x) i) (e x i)
  /\ induced (parent x) (ambient_f (value x) i) (f x i).
Proof. by split; apply: inducedP. Qed.

(** The operators of a subcrystal stay partial inverses of each other: when
    the ambient f_i and e_i are, then for elements x and y of S, x.f(i) is y
    exactly when y.e(i) is x. *)
Theorem subcrystal_e_f_inverse (x y : element) (i : I) :
  (forall a b, ambient_f a i = Some b <-> ambient_e b i = Some a) ->
  _containing (parent x) (value x) -> _containing (parent y) (value y) ->
  f x i = Some y <-> e y i = Some x.
Proof.
case: x y => [S a] [S' b] /= inv Sa S'b; rewrite /f /e /=; split.
  case fa: (ambient_f a i) => [r|] //; case: ifP => // _ [eqS eq_r].
  by move: fa; rewrite eq_r eqS in Sa * => /inv ->; rewrite Sa.
case eb: (ambient_e b i) => [r|] //; case: ifP => // _ [eqS eq_r].
by move: eb; rewrite eq_r eqS in S'b * => /inv ->; rewrite S'b.
Qed.

End Subcrystal.

(* The crystal of the natural numbers, f the successor and e the predecessor,
   and the subcrystal of all of it. *)
Definition nat_e (a : nat) (_ : unit) : option nat :=
  if a is a'.+1 then Some a' else None.
Definition nat_f (a : nat) (_ : unit) : option nat := Some a.+1.

Lemma subcrystal_e_f_inverse_nat :
  ((forall a b : nat, nat_f a tt = Some b <-> nat_e b tt = Some a)
   /\ _containing (Build (ContainedNone nat)) 0%N
   /\ _containing (Build (ContainedNone nat)) 1%N)
  /\ (f nat_f (Element (Build (ContainedNone nat)) 0%N) tt
        = Some (Element (Build (ContainedNone nat)) 1%N)
      <-> e nat_e (Element (Build (ContainedNone nat)) 1%N) tt
            = Some (Element (Build (ContainedNone nat)) 0%N)).
Proof.
have inv (a b : nat) : nat_f a tt = Some b <-> nat_e b tt = Some a.
  by case: b => [|b] /=; split=> // -[->].
split; first by [].
exact: (@subcrystal_e_f_inverse _ _ nat_e nat_f
          (Element (Build (ContainedNone nat)) 0%N)
          (Element (Build (ContainedNone nat)) 1%N) tt inv isT isT).
Defined.

End Subcrystal.

(* ------------------------------------------------------------------------ *)
(* sage/geometry/polyhedron/generating_function.py                           *)
(* ------------------------------------------------------------------------ *)

Module GeneratingFunction.

(* An element of Zmod(m): the modulus of its parent and its lift in [0, m). *)
Record IntegerMod := Mod { modulus : nat; lift : nat }.

Definition IntegerMod_pair (x : IntegerMod) : nat * nat := (modulus x, lift x).
Definition pair_IntegerMod (p : nat * nat) : IntegerMod := Mod p.1 p.2.
Definition IntegerMod_pairK : cancel IntegerMod_pair pair_IntegerMod :=
  fun x => let: Mod _ _ := x in erefl.
HB.instance Definition _ := Equality.copy IntegerMod (can_type IntegerMod_pairK).

(* Zmod(m)(x) *)
Definition Zmod (m : nat) (x : int) : IntegerMod := Mod m `|(x %% m%:Z)%Z|.

(* x.order(): the additive order of x in Z/mZ *)
Definition order (x : IntegerMod) : nat :=
  modulus x %/ gcdn (lift x) (modulus x).

Definition vector := seq IntegerMod.

(* r - j*v, entry by entry; the operands must have the same length. *)
Definition vector_sub_scaled (r : vector) (j : nat) (v : vector) :
    result vector :=
  if size r != size v
  then Raise (TypeError "unsupported operand parent(s) for -")
  else Ok [seq Zmod (modulus p.1) ((lift p.1)%:Z - j%:Z * (lift p.2)%:Z)
          | p <- zip r v].

(* What the iterations of the loop of a generator yield, one list per
   iteration, up to the first exception. *)
Fixpoint chain (T : Type) (parts : seq (result (seq T))) : result (seq T) :=
  if parts is p :: parts' then
    bind p (fun l => bind (chain parts') (fun l' => Ok (l ++ l')))
  else Ok [::].

Fixpoint _compositions_mod_ (u : seq vector) (r : vector) :
    result (seq (seq IntegerMod)) :=
  if u is v :: u' then
    if v is [::] then Raise (ValueError "max() arg is an empty sequence")
    else
      let m := foldr maxn 0 [seq order vv | vv <- v] in
      chain [seq bind (vector_sub_scaled r j v) (fun r' =>
                  bind (_compositions_mod_ u' r') (fun l =>
                    Ok [seq Zmod m j%:Z :: a | a <- l]))
            | j <- iota 0 m]
  else Ok (if all (fun rr => lift rr == 0) r then [:: [::]] else [::]).

(* compositions_mod(u, m, r), with multidimensional=False *)
Definition compositions_mod (u : seq int) (m : nat) (r : int) :
    result (seq (seq IntegerMod)) :=
  let u := [seq [:: Zmod m uu] | uu <- u] in
  let r := [:: Zmod m r] in
  _compositions_mod_ u r.

(* compositions_mod(u, m, r, multidimensional=True); r = None is the default
   r=0, which stands for the zero vector. *)
Definition compositions_mod_multidimensional (u : seq (seq int)) (m : nat)
    (r : option (seq int)) : result (seq (seq IntegerMod)) :=
  let u' := [seq [seq Zmod m uuu | uuu <- uu] | uu <- u] in
  match r with
  | None =>
      if u' is u0 :: _ then _compositions_mod_ u' (nseq (size u0) (Zmod m 0))
      else Raise (OtherError "IndexError: tuple index out of range")
  | Some r => _compositions_mod_ u' [seq Zmod m rr | rr <- r]
  end.

(* a u^T, for a tuple of residues a and integer coefficients u *)
Definition dot (a : seq IntegerMod) (u : seq int) : int :=
  foldr (fun p s => (lift p.1)%:Z * p.2 + s) 0 (zip a u).

(* The tuples of the claim as stated: one element of Z/mZ per entry of u,
   with a u^T = r modulo m. *)
Definition solution_mod (m : nat) (u : seq int) (r : int)
    (a : seq IntegerMod) : bool :=
  [&& size a == size u,
      all (fun x => (modulus x == m) && (lift x < m)%N) a
    & (dot a u == r %[mod m%:Z])%Z].

(* The tuples the code yields: the entry for the coefficient uu is an element
   of Z/dZ, for d the additive order of uu in Z/mZ. *)
Definition reduced_residue (m : nat) (uu : int) (x : IntegerMod) : bool :=
  (modulus x == order (Zmod m uu)) && (lift x < modulus x)%N.

Definition reduced_solution_mod (m : nat) (u : seq int) (r : int)
    (a : seq IntegerMod) : bool :=
  all2 (reduced_residue m) u a && (dot a u == r %[mod m%:Z])%Z.

(* The list the generator yields when every vector has one entry. *)
Fixpoint compositions (m : nat) (u : seq int) (r : nat) :
    seq (seq IntegerMod) :=
  if u is uu :: u' then
    let d := order (Zmod m uu) in
    flatten
      [seq [seq Mod d j :: a
           | a <- compositions m u'
                    (lift (Zmod m (r%:Z - j%:Z * (lift (Zmod m uu))%:Z)))]
      | j <- iota 0 d]
  else if r == 0%N then [:: [::]] else [::].

(* The first exception of a comprehension ends it. *)
Fixpoint collect (T : Type) (parts : seq (result T)) : result (seq T) :=
  if parts is p :: parts' then
    bind p (fun x => bind (collect parts') (fun l => Ok (x :: l)))
  else Ok [::].

(* The lexicographic order of lists of integers. *)
Fixpoint lexicographic (s t : seq nat) : bool :=
  match s, t with
  | [::], _ => true
  | _ :: _, [::] => false
  | a :: s', b :: t' => (a < b)%N || ((a == b) && lexicographic s' t')
  end.

(* Permutations(d): the permutations of 1, ..., d in lexicographic order. *)
Definition Permutations (d : nat) : seq (seq nat) :=
  sort lexicographic (permutations (iota 1 d)).

(* zip(pi[:-1], pi[1:]) *)
Definition consecutive (pi : seq nat) : seq (nat * nat) :=
  zip (take (size pi).-1 pi) (drop 1 pi).

(* The ieqs of the polyhedron of the permutation pi, with split=True:
   tuple(1 if i==b else (-1 if i==a or i==0 and a > b else 0)
         for i in range(d+1)) for a, b in zip(pi[:-1], pi[1:]) *)
Definition split_ieqs (d : nat) (pi : seq nat) : seq (seq int) :=
  [seq [seq (if i == p.2 then 1
             else if (i == p.1) || ((i == 0%N) && (p.2 < p.1)%N) then -1
             else 0)
       | i <- iota 0 d.+1]
  | p <- consecutive pi].

(* The inequality ieq of a Polyhedron is
   ieq[0] + ieq[1] b[0] + ... + ieq[d] b[d-1] >= 0; its left side at the
   point b, and whether b satisfies it. *)
Definition evaluate (ieq : seq int) (b : seq int) : int :=
  \sum_(i < size ieq) nth 0 ieq i * nth 0 (1 :: b) i.

Definition satisfies (ieq : seq int) (b : seq int) : bool :=
  0 <= evaluate ieq b.

(* The point b is in Polyhedron(ieqs=ieqs). *)
Definition contains (ieqs : seq (seq int)) (b : seq int) : bool :=
  all (satisfies^~ b) ieqs.

(* The list _compositions_mod_ yields when no iteration raises. *)
Fixpoint compositions_vec (u : seq vector) (r : vector) :
    seq (seq IntegerMod) :=
  if u is v :: u' then
    let m := foldr maxn 0 [seq order vv | vv <- v] in
    flatten
      [seq [seq Zmod m j%:Z :: a
           | a <- compositions_vec u'
                    [seq Zmod (modulus p.1)
                           ((lift p.1)%:Z - j%:Z * (lift p.2)%:Z)
                    | p <- zip r v]]
      | j <- iota 0 m]
  else if all (fun rr => lift rr == 0) r then [:: [::]] else [::].

(* The entry c of a u, for a tuple of residues a and integer vectors u *)
Definition dot_column (a : seq IntegerMod) (u : seq (seq int)) (c : nat) :
    int :=
  foldr (fun p s => (lift p.1)%:Z * nth 0 p.2 c + s) 0 (zip a u).

(* The matrix T of prepare_mod: the identity, with mr[0] at (i+1, i+1) and
   mr[1] at (i+1, 0) for the items i: mr of mod, a later item of the same key
   replacing an earlier one. *)
Definition mod_matrix (mod : seq (nat * (int * int))) (i j : nat) : int :=
  foldl (fun D imr =>
           let: (k, (m, r)) := imr in
           fun p : nat * nat =>
             if p == (k.+1, k.+1) then m
             else if p == (k.+1, 0%N) then r else D p)
        (fun p : nat * nat => (p.1 == p.2)%:Z) mod (i, j).

(* vector(e) * T, for T of size n *)
Definition vector_times (n : nat) (e : seq int) (T : nat -> nat -> int) :
    result (seq int) :=
  if size e != n
  then Raise (TypeError "unsupported operand parent(s) for *")
  else Ok [seq \sum_(i < n) nth 0 e i * T i j | j <- iota 0 n].

(* vector(e) * T, for a vector of the size of T *)
Definition times (n : nat) (T : nat -> nat -> int) (e : seq int) : seq int :=
  [seq \sum_(i < n) nth 0 e i * T i j | j <- iota 0 n].

(* What prepare_mod returns: the extra factor and the rules, Laurent
   monomials of B by their exponents, the rules by the index of the generator
   they replace, and the transformed tuples of coefficient vectors. *)
Record prepared := Prepared {
  factor : seq int;
  rules : seq (nat * seq int);
  vecs : seq (seq (seq int))
}.

(* prepare_mod(mod, B, *vecs), for B with ngens generators; the factor 1 of
   an empty mod is the monomial of exponents zero, and matrix(ZZ, n, n, D)
   refuses an entry outside the matrix. *)
Definition prepare_mod (mod : seq (nat * (int * int))) (ngens : nat)
    (vecs : seq (seq (seq int))) : result prepared :=
  if mod is [::] then Ok (Prepared (nseq ngens 0) [::] vecs)
  else
    let n := ngens.+1 in
    if ~~ all (fun imr => (imr.1.+1 < n)%N) mod
    then Raise (OtherError "IndexError: matrix indices out of range")
    else
      let T := mod_matrix mod in
      let column j := [seq T i j | i <- iota 0 n] in
      let factor := behead (column 0%N) in
      let rules := [seq (j, behead (column j.+1)) | j <- iota 0 ngens] in
      bind (collect [seq collect [seq vector_times n e T | e <- vec]
                    | vec <- vecs])
        (fun vecs' => Ok (Prepared factor rules vecs')).

(* mod.get(i, (1, 0)) *)
Definition mod_get (mod : seq (nat * (int * int))) (i : nat) : int * int :=
  last (1, 0) [seq imr.2 | imr <- mod & imr.1 == i].

(* The substitution b_i = m b'_i + r for the items i: (m, r) of mod. *)
Definition mod_substitution (mod : seq (nat * (int * int))) (b' : seq int) :
    seq int :=
  [seq (mod_get mod i).1 * nth 0 b' i + (mod_get mod i).2
  | i <- iota 0 (size b')].

Section Splitting.

(* Sage's polyhedra and factorizations, and the helper that computes the
   generating functions, which may raise. *)
Variables (polyhedron factorization : Type).
Variable is_empty : polyhedron -> bool.
Variable ambient_dim : polyhedron -> nat.
(* Polyhedron(ieqs=...) and polyhedron & split_polyhedron *)
Variable Polyhedron : seq (seq int) -> polyhedron.
Variable intersection : polyhedron -> polyhedron -> polyhedron.
(* Factorization([], unit=0) *)
Variable zero : factorization.
Variable _generating_function_of_polyhedron_ :
  polyhedron -> result (seq factorization).

(* The argument split: False, True or a list of polyhedra. *)
Inductive split_spec :=
  | SplitFalse
  | SplitTrue
  | SplitList of seq polyhedron.

(* What the function returns: a Summandization or one factorization. *)
Inductive answer :=
  | Summandization of seq factorization
  | Single of factorization.

(* The truth value of split, which result_as_tuple=None takes over. *)
Definition truth (split : split_spec) : bool :=
  match split with
  | SplitFalse => false
  | SplitTrue => true
  | SplitList l => ~~ nilp l
  end.

Definition generating_function_of_polyhedron (P : polyhedron)
    (split : split_spec) (result_as_tuple : option bool) : result answer :=
  let result_as_tuple :=
    if result_as_tuple is Some t then t else truth split in
  if is_empty P then
    let result := zero in
    if result_as_tuple then Ok (Summandization [:: result])
    else Ok (Single result)
  else
    match split with
    | SplitFalse =>
        bind (_generating_function_of_polyhedron_ P) (fun result =>
          if result_as_tuple then Ok (Summandization result)
          else if result is [:: r] then Ok (Single r)
          else Raise (ValueError
                 "Cannot unpack result. (Set 'result_as_tuple=True'.)"))
    | _ =>
        let d := ambient_dim P in
        if (d <= 1)%N
        then Raise (ValueError "Cannot do splitting with only dimension {}.")
        else
          let pieces :=
            match split with
            | SplitList l => l
            | _ => [seq Polyhedron (split_ieqs d pi) | pi <- Permutations d]
            end in
          bind (collect
                  [seq _generating_function_of_polyhedron_ (intersection P ph)
                  | ph <- pieces])
            (fun result =>
               if ~~ result_as_tuple
               then Raise (ValueError
                      "Cannot unpack result.(Unset 'result_as_tuple=False'.)")
               else Ok (Summandization (flatten result)))
    end.

End Splitting.

(* The examples of the docstring of compositions_mod. *)
Example compositions_mod_1_1 :
  compositions_mod [:: 1; 1] 2 0
  = Ok [:: [:: Mod 2 0; Mod 2 0]; [:: Mod 2 1; Mod 2 1]].
Proof. by []. Qed.

Example compositions_mod_2_2_2 :
  compositions_mod [:: 2; 2; 2] 6 0
  = Ok [seq [seq Mod 3 k | k <- a]
       | a <- [:: [:: 0; 0; 0]; [:: 0; 1; 2]; [:: 0; 2; 1]; [:: 1; 0; 2];
                  [:: 1; 1; 1]; [:: 1; 2; 0]; [:: 2; 0; 1]; [:: 2; 1; 0];
                  [:: 2; 2; 2]]%N].
Proof. by vm_compute. Qed.

Example compositions_mod_1_0 :
  compositions_mod [:: 1; 0] 2 0 = Ok [:: [:: Mod 2 0; Mod 1 0]].
Proof. by []. Qed.

Example compositions_mod_columns :
  compositions_mod_multidimensional [:: [:: 1; 2]; [:: 2; 2]; [:: 3; 2]] 6 None
  = Ok [seq [:: Mod 6 k; Mod 3 k; Mod 3 k] | k <- [:: 0; 1; 2]%N].
Proof. by vm_compute. Qed.

Lemma chain_Ok (T : Type) (parts : seq (seq T)) :
  chain [seq Ok l | l <- parts] = Ok (flatten parts).
Proof. by elim: parts => //= l parts ->. Qed.

Lemma Zmod_small (m j : nat) : (j < m)%N -> Zmod m j%:Z = Mod m j.
Proof. by move=> lt_jm; rewrite /Zmod modz_small ?absz_nat. Qed.

Lemma lift_Zmod_lt (m : nat) (x : int) : (0 < m)%N -> (lift (Zmod m x) < m)%N.
Proof.
move=> m_gt0; rewrite /= -ltz_nat gez0_abs ?ltz_pmod ?modz_ge0 //.
by rewrite eqz_nat -lt0n.
Qed.

Lemma lift_Zmod_mod (m : nat) (x : int) :
  (0 < m)%N -> ((lift (Zmod m x))%:Z = x %[mod m%:Z])%Z.
Proof.
by move=> m_gt0; rewrite /= gez0_abs ?modz_mod ?modz_ge0 // eqz_nat -lt0n.
Qed.

Lemma _compositions_mod_E (m : nat) (u : seq int) (r : nat) :
  _compositions_mod_ [seq [:: Zmod m uu] | uu <- u] [:: Mod m r]
  = Ok (compositions m u r).
Proof.
elim: u r => [|uu u IH] r /=; first by rewrite andbT.
rewrite maxn0 -chain_Ok -map_comp; congr chain.
apply/eq_in_map => j; rewrite mem_iota add0n /= => lt_jd.
by rewrite IH /= Zmod_small.
Qed.

(* The remainder handed to the recursive call, as a congruence. *)
Lemma remainder_step (m : nat) (uu : int) (r j : nat) (s : int) :
  (0 < m)%N ->
  (s == (lift (Zmod m (r%:Z - j%:Z * (lift (Zmod m uu))%:Z)))%:Z %[mod m%:Z])%Z
  = (j%:Z * uu + s == r%:Z %[mod m%:Z])%Z.
Proof.
move=> m_gt0; set L := lift (Zmod m uu); set R := lift _.
have /eqP := lift_Zmod_mod uu m_gt0; rewrite -/L eqz_mod_dvd => dvdL.
have /eqP := lift_Zmod_mod (r%:Z - j%:Z * L%:Z) m_gt0.
rewrite -/R eqz_mod_dvd => dvdR; rewrite !eqz_mod_dvd.
have -> : j%:Z * uu + s - r%:Z
          = s - R%:Z + (R%:Z - (r%:Z - j%:Z * L%:Z) - j%:Z * (L%:Z - uu)).
  by ring.
by rewrite [RHS]rpredDr // rpredB // dvdz_mull.
Qed.

Lemma compositionsP (m : nat) (u : seq int) (r : nat) (a : seq IntegerMod) :
  (0 < m)%N -> (r < m)%N ->
  (a \in compositions m u r)
  = all2 (reduced_residue m) u a && (dot a u == r%:Z %[mod m%:Z])%Z.
Proof.
move=> m_gt0; elim: u r a => [|uu u IH] r [|x a] lt_rm //=.
- rewrite /dot /= mod0z modz_small ?ltz_nat ?lt_rm // (eqz_nat 0 r).
  by rewrite [RHS]eq_sym; case: eqP.
- by case: ifP.
- by apply/flatten_mapP => -[j _ /mapP[]].
set d := order (Zmod m uu).
apply/flatten_mapP/idP => [[j] | /andP[/andP[]]].
  rewrite mem_iota add0n /= => lt_jd /mapP[a' a'in [-> ->]].
  move: a'in; rewrite IH ?lift_Zmod_lt // => /andP[-> /=].
  by rewrite remainder_step // /reduced_residue /= eqxx lt_jd.
case: x => mx j /andP[/= /eqP-> lt_jd] all_a dotP.
exists j; first by rewrite mem_iota add0n.
apply/mapP; exists a => //.
by rewrite IH ?lift_Zmod_lt // all_a remainder_step.
Qed.

Lemma compositions_uniq (m : nat) (u : seq int) (r : nat) :
  uniq (compositions m u r).
Proof.
elim: u r => [|uu u IH] r /=; first by case: ifP.
set d := order _; have: uniq (iota 0 d) by apply: iota_uniq.
elim: (iota 0 d) => //= j s IHs /andP[j_notin uniq_s].
have inj_cons : injective (cons (Mod d j)) by move=> ? ? [].
rewrite cat_uniq IHs // andbT (map_inj_uniq inj_cons) IH /=.
apply/hasPn => _ /flatten_mapP[j' j'in /mapP[a' _ ->]].
apply/negP => /mapP[a'' _ [eq_j _]].
by rewrite -eq_j j'in in j_notin.
Qed.

(** C8, as the code has it: for a positive modulus m, compositions_mod(u, m, r)
    yields, each exactly once, the tuples a with one entry per entry of u,
    the entry for the coefficient uu an element of Z/dZ for d the additive
    order of uu in Z/mZ, such that a u^T is congruent to r modulo m. *)
Theorem compositions_mod_reduced_residues (m : nat) (u : seq int) (r : int) :
  (0 < m)%N ->
  exists2 l, compositions_mod u m r = Ok l
    & uniq l /\ forall a, (a \in l) = reduced_solution_mod m u r a.
Proof.
move=> m_gt0; exists (compositions m u (lift (Zmod m r))).
  exact: _compositions_mod_E.
split=> [|a]; first exact: compositions_uniq.
rewrite compositionsP ?lift_Zmod_lt // /reduced_solution_mod.
by rewrite (eqP (introT eqP (lift_Zmod_mod r m_gt0))).
Qed.

Lemma compositions_mod_reduced_residues_6 :
  (0 < 6)%N
  /\ exists2 l, compositions_mod [:: 2; 2; 2] 6 0 = Ok l
       & uniq l
         /\ forall a, (a \in l) = reduced_solution_mod 6 [:: 2; 2; 2] 0 a.
Proof.
split; first by [].
exact: (@compositions_mod_reduced_residues 6 [:: 2; 2; 2] 0 isT).
Defined.

(** C8 as stated fails: for u = (1, 0), m = 2 and r = 0 the tuple (0, 1) of
    elements of Z/2Z has a u^T = 0, and the iterator does not yield it; the
    one tuple it yields has its second entry in Z/1Z. *)
Lemma compositions_mod_misses_residues :
  exists2 l, compositions_mod [:: 1; 0] 2 0 = Ok l
    & exists2 a, solution_mod 2 [:: 1; 0] 0 a & a \notin l.
Proof.
exists [:: [:: Mod 2 0; Mod 1 0]] => //.
by exists [:: Mod 2 0; Mod 2 1].
Qed.

(* The pieces of the splitting *)

Lemma consecutive_cons (a b : nat) (pi : seq nat) :
  consecutive (a :: b :: pi) = (a, b) :: consecutive (b :: pi).
Proof. by rewrite /consecutive /= !drop0. Qed.

(* A sum with one term. *)
Lemma sum_pick (n k : nat) (F : nat -> int) :
  (k < n)%N -> \sum_(i < n) (if (i : nat) == k then F i else 0) = F k.
Proof.
move=> ltk; rewrite (bigD1 (Ordinal ltk)) //= eqxx big1 ?addr0 // => i.
by rewrite -val_eqE /= => /negbTE ->.
Qed.

(* The left side of the inequality of the pair (a, b). *)
Lemma evaluate_split (d a b : nat) (x : seq int) :
  (0 < a <= d)%N -> (0 < b <= d)%N -> a != b ->
  evaluate [seq (if i == b then 1
                 else if (i == a) || ((i == 0%N) && (b < a)%N) then -1
                 else 0) | i <- iota 0 d.+1] x
  = nth 0 (1 :: x) b - nth 0 (1 :: x) a - (b < a)%N%:Z.
Proof.
case/andP=> a_gt0 lead /andP[b_gt0 lebd] anb.
rewrite /evaluate size_map size_iota.
pose X i := nth 0 (1 :: x) i.
rewrite (eq_bigr (fun i : 'I_d.+1 =>
           (if (i : nat) == b then X i else 0)
           + ((if (i : nat) == a then - X i else 0)
              + (if (i : nat) == 0%N then - (b < a)%N%:Z else 0)))) => [i _|].
  have b0 : (b == 0%N) = false by apply/negbTE; rewrite -lt0n.
  have a0 : (a == 0%N) = false by apply/negbTE; rewrite -lt0n.
  have ba : (b == a) = false by rewrite eq_sym; apply/negbTE.
  rewrite (nth_map 0%N) ?size_iota // nth_iota // add0n -/(X i).
  have [-> | nib] := eqVneq (i : nat) b.
    by rewrite ba b0 mul1r !addr0.
  have [-> | nia] /= := eqVneq (i : nat) a.
    by rewrite a0 mulN1r add0r addr0.
  have [-> | ni0] /= := eqVneq (i : nat) 0%N; last by rewrite mul0r !addr0.
  by rewrite /X /=; case: (b < a)%N; rewrite ?mulN1r ?mul0r ?mulr1 !add0r.
rewrite !big_split /= sum_pick ?ltnS //.
rewrite (@sum_pick _ a (fun i => - X i)) ?ltnS //.
by rewrite (@sum_pick _ 0%N (fun=> - (b < a)%N%:Z)) // addrA.
Qed.

Section Split.

Variable x : seq int.

(* The order of the indices by the coordinates of x, ties broken by the
   index. *)
Let leT (a b : nat) : bool :=
  (nth 0 (1 :: x) a < nth 0 (1 :: x) b)
  || ((nth 0 (1 :: x) a == nth 0 (1 :: x) b) && (a <= b)%N).

Lemma leT_total : total leT.
Proof.
move=> a b; rewrite /leT; case: (ltgtP (nth 0 (1 :: x) a) (nth 0 (1 :: x) b));
  rewrite ?eqxx ?orbT //= => _.
exact: leq_total.
Qed.

Lemma leT_trans : transitive leT.
Proof.
move=> b a c /orP[ltab | /andP[/eqP eab leab]] /orP[ltbc | /andP[/eqP ebc lebc]];
  rewrite /leT.
- by rewrite (lt_trans ltab ltbc).
- by rewrite -ebc ltab.
- by rewrite eab ltbc.
- by rewrite eab ebc eqxx (leq_trans leab lebc) orbT.
Qed.

Lemma leT_anti : antisymmetric leT.
Proof.
move=> a b; rewrite /leT.
case: (ltgtP (nth 0 (1 :: x) a) (nth 0 (1 :: x) b)) => //= _.
exact: anti_leq.
Qed.

Lemma satisfies_split (d a b : nat) :
  (0 < a <= d)%N -> (0 < b <= d)%N -> a != b ->
  satisfies [seq (if i == b then 1
                  else if (i == a) || ((i == 0%N) && (b < a)%N) then -1
                  else 0) | i <- iota 0 d.+1] x
  = leT a b.
Proof.
move=> ad bd anb; rewrite /satisfies evaluate_split // /leT.
rewrite subr_ge0 lerBrDl.
case: (ltngtP a b) anb => // [ltab | ltba] _.
  by rewrite addr0 le_eqVlt orbC andbT.
by rewrite andbF orbF -[_ + true%:Z]/(_ + 1) addrC lez1D.
Qed.

(* The points of the polyhedron of pi are those whose coordinates pi sorts. *)
Lemma contains_split (d : nat) (pi : seq nat) :
  uniq pi -> all (fun a => 0 < a <= d)%N pi ->
  contains (split_ieqs d pi) x = sorted leT pi.
Proof.
rewrite /contains /split_ieqs all_map; set P := preim _ _.
have PE a b : (0 < a <= d)%N -> (0 < b <= d)%N -> a != b -> P (a, b) = leT a b.
  by move=> ad bd anb; rewrite -(satisfies_split ad bd anb).
case: pi => [|a pi] //; elim: pi a => [|b pi IHpi] a //.
rewrite consecutive_cons [uniq _]/= inE negb_or -andbA.
case/and3P=> anb a_notin uniq_pi /and3P[ad bd all_pi].
rewrite -[(a, b) :: _]cat1s all_cat all_seq1 PE // [sorted _ _]/=.
congr (_ && _).
by apply: IHpi => //=; rewrite bd.
Qed.

(** With split=True the polyhedra of the permutations of 1, ..., d split the
    integer points: every point of Z^d lies in the polyhedron of exactly one
    permutation. *)
Theorem split_partition :
  count (fun pi => contains (split_ieqs (size x) pi) x)
        (Permutations (size x)) = 1%N.
Proof.
set d := size x; pose s0 := sort leT (iota 1 d).
have memP pi : pi \in Permutations d ->
    [/\ uniq pi, all (fun a => 0 < a <= d)%N pi & perm_eq pi s0].
  rewrite mem_sort mem_permutations => pm; split.
  - by rewrite (perm_uniq pm) iota_uniq.
  - rewrite (perm_all _ pm); apply/allP => a.
    by rewrite mem_iota add1n ltnS.
  - by rewrite perm_sym perm_sort perm_sym.
rewrite (@eq_in_count _ _ (pred1 s0)) => [pi pi_in|].
  have [uniq_pi all_pi pm] := memP _ pi_in.
  rewrite /= contains_split //; apply/idP/eqP => [sorted_pi | ->].
    apply: (sorted_eq leT_trans leT_anti) => //.
    exact: (sort_sorted leT_total).
  exact: (sort_sorted leT_total).
rewrite count_uniq_mem ?sort_uniq ?permutations_uniq //.
by rewrite mem_sort mem_permutations perm_sort perm_refl.
Qed.

End Split.

(* compositions_mod with multidimensional=True *)

Lemma _compositions_mod_cons (v : vector) (u : seq vector) (r : vector) :
  v != [::] ->
  _compositions_mod_ (v :: u) r
  = let m := foldr maxn 0 [seq order vv | vv <- v] in
    chain [seq bind (vector_sub_scaled r j v) (fun r' =>
                 bind (_compositions_mod_ u r') (fun l =>
                   Ok [seq Zmod m j%:Z :: a | a <- l]))
          | j <- iota 0 m].
Proof. by case: v. Qed.

Lemma size_sub_scaled (r v : vector) (j : nat) :
  size v = size r ->
  size [seq Zmod (modulus p.1) ((lift p.1)%:Z - j%:Z * (lift p.2)%:Z)
       | p <- zip r v] = size r.
Proof. by move=> size_v; rewrite size_map size_zip size_v minnn. Qed.

Lemma _compositions_mod_vec (u : seq vector) (r : vector) :
  all (fun v => size v == size r) u -> (0 < size r)%N ->
  _compositions_mod_ u r = Ok (compositions_vec u r).
Proof.
elim: u r => [|v u IHu] r // /andP[/eqP size_v all_u] r_gt0.
have v_n0 : v != [::] by rewrite -size_eq0 size_v -lt0n.
rewrite _compositions_mod_cons // [compositions_vec _ _]/=.
rewrite -chain_Ok -map_comp; congr chain.
apply/eq_in_map => j _; rewrite /vector_sub_scaled size_v eqxx.
by rewrite [bind (Ok _) _]/= IHu ?size_sub_scaled.
Qed.

Lemma modulus_sub_scaled (m : nat) (r v : vector) (j : nat) :
  all (fun z => modulus z == m) r ->
  all (fun z => modulus z == m)
      [seq Zmod (modulus p.1) ((lift p.1)%:Z - j%:Z * (lift p.2)%:Z)
      | p <- zip r v].
Proof. by elim: r v => [|x r IH] [|y v] //= /andP[-> /IH ->]. Qed.

Lemma compositions_vec_sound (m : nat) (u : seq (seq int)) (r : vector)
    (a : seq IntegerMod) :
  (0 < m)%N -> all (fun z => modulus z == m) r ->
  all (fun uu => size uu == size r) u ->
  a \in compositions_vec [seq [seq Zmod m uuu | uuu <- uu] | uu <- u] r ->
  size a = size u
  /\ forall c, (c < size r)%N ->
       (dot_column a u c == (lift (nth (Mod m 0) r c))%:Z %[mod m%:Z])%Z.
Proof.
move=> m_gt0; elim: u r a => [|uu u IHu] r a mod_r.
  rewrite /=; case: ifP => // all0 _; rewrite inE => /eqP ->.
  split=> // c ltc; rewrite /dot_column /=.
  by have /eqP -> := allP all0 _ (mem_nth (Mod m 0) ltc).
rewrite [all _ _]/= [compositions_vec _ _]/= => /andP[/eqP size_uu all_u].
case/flatten_mapP => j; rewrite mem_iota add0n /= => ltj.
set r' := map _ (zip _ _); case/mapP => a' a'in ->.
have size_v : size [seq Zmod m uuu | uuu <- uu] = size r by rewrite size_map.
have size_r' : size r' = size r by apply: size_sub_scaled.
have [] := IHu r' a' (modulus_sub_scaled _ _ mod_r) _ a'in.
  by rewrite size_r'.
move=> size_a' dotP; split=> [|c ltc]; first by rewrite /= size_a'.
have := dotP c; rewrite size_r' => /(_ ltc).
rewrite (nth_map (Mod m 0, Mod m 0)) ?size_zip ?size_v ?minnn //.
rewrite nth_zip //= (nth_map 0) ?size_uu //.
have /eqP -> := allP mod_r _ (mem_nth (Mod m 0) ltc).
by rewrite remainder_step // /dot_column Zmod_small.
Qed.

(** With multidimensional=True and vectors of one length, compositions_mod
    raises nothing, and every tuple a it yields has one entry per vector of u
    and solves a u^T = r modulo m, entry by entry. *)
Theorem compositions_mod_multidimensional_sound (u : seq (seq int)) (m : nat)
    (r : seq int) :
  (0 < m)%N -> (0 < size r)%N -> all (fun uu => size uu == size r) u ->
  exists2 l, compositions_mod_multidimensional u m (Some r) = Ok l
    & forall a, a \in l ->
        size a = size u
        /\ forall c, (c < size r)%N ->
             (dot_column a u c == nth 0 r c %[mod m%:Z])%Z.
Proof.
move=> m_gt0 r_gt0 size_u.
exists (compositions_vec [seq [seq Zmod m uuu | uuu <- uu] | uu <- u]
          [seq Zmod m rr | rr <- r]).
  rewrite /compositions_mod_multidimensional _compositions_mod_vec //.
    by rewrite all_map; apply: sub_all size_u => uu; rewrite /= !size_map.
  by rewrite size_map.
move=> a /(compositions_vec_sound m_gt0) [].
- by rewrite all_map; apply/allP => rr _ /=.
- by rewrite size_map.
move=> size_a dotP; split=> // c ltc.
have := dotP c; rewrite size_map => /(_ ltc) /eqP ->.
by rewrite (nth_map 0) //; apply/eqP/lift_Zmod_mod.
Qed.

(* The docstring example with the remainder written out, and a solution the
   iterator does not find: j ranges below the largest order of the entries of
   a vector, here 3, and 3 (2, 3) = (0, 3) modulo 6. *)
Lemma compositions_mod_multidimensional_sound_6 :
  ((0 < 6)%N /\ (0 < size ([:: 0; 0]%R : seq int))%N
   /\ all (fun uu : seq int => size uu == size ([:: 0; 0] : seq int))
          [:: [:: 1; 2]; [:: 2; 2]; [:: 3; 2]])
  /\ exists2 l,
       compositions_mod_multidimensional [:: [:: 1; 2]; [:: 2; 2]; [:: 3; 2]]
         6 (Some [:: 0; 0]) = Ok l
       & forall a, a \in l ->
           size a = size ([:: [:: 1; 2]; [:: 2; 2]; [:: 3; 2]] : seq (seq int))
           /\ forall c, (c < size ([:: 0; 0]%R : seq int))%N ->
                (dot_column a [:: [:: 1; 2]; [:: 2; 2]; [:: 3; 2]] c
                 == nth 0 [:: 0; 0] c %[mod 6%:Z])%Z.
Proof.
split; first by [].
exact: (@compositions_mod_multidimensional_sound
          [:: [:: 1; 2]; [:: 2; 2]; [:: 3; 2]] 6 [:: 0; 0] isT isT isT).
Defined.

Example compositions_mod_multidimensional_misses :
  compositions_mod_multidimensional [:: [:: 2; 3]] 6 (Some [:: 0; 3]) = Ok [::]
  /\ (dot_column [:: Mod 6 3] [:: [:: 2; 3]] 0 == 0 %[mod 6%:Z])%Z
  /\ (dot_column [:: Mod 6 3] [:: [:: 2; 3]] 1 == 3 %[mod 6%:Z])%Z.
Proof. by vm_compute. Qed.

Example Permutations_3 :
  Permutations 3
  = [:: [:: 1; 2; 3]; [:: 1; 3; 2]; [:: 2; 1; 3]; [:: 2; 3; 1]; [:: 3; 1; 2];
        [:: 3; 2; 1]]%N.
Proof. by vm_compute. Qed.

(* The polyhedron of the permutation (2, 1) is b1 < b0. *)
Example split_ieqs_2_1 : split_ieqs 2 [:: 2; 1]%N = [:: [:: -1; 1; -1]].
Proof. by []. Qed.

(* prepare_mod *)

Lemma mod_matrix_rcons mod (k : nat) (m r : int) (i j : nat) :
  mod_matrix (rcons mod (k, (m, r))) i j
  = if (i, j) == (k.+1, k.+1) then m
    else if (i, j) == (k.+1, 0%N) then r else mod_matrix mod i j.
Proof. by rewrite /mod_matrix -cats1 foldl_cat. Qed.

Lemma mod_get_rcons mod (k : nat) (mr : int * int) (i : nat) :
  mod_get (rcons mod (k, mr)) i = if k == i then mr else mod_get mod i.
Proof.
rewrite /mod_get filter_rcons /=; case: ifP => // _.
by rewrite map_rcons last_rcons.
Qed.

(* The entries of the matrix T. *)
Lemma mod_matrixE mod (i j : nat) :
  mod_matrix mod i j
  = if j == 0%N then (if i == 0%N then 1 else (mod_get mod i.-1).2)
    else if i == j then (mod_get mod i.-1).1 else 0.
Proof.
elim/last_ind: mod i j => [|mod [k [m r]] IHmod] i j.
  case: j => [|j]; case: i => [|i] //=.
  by rewrite /mod_matrix /=; case: eqP.
rewrite mod_matrix_rcons mod_get_rcons IHmod !xpair_eqE.
case: j => [|j]; case: i => [|i] //=; rewrite ?eqSS ?andbF ?andbT //.
- by rewrite eq_sym; case: eqP.
- rewrite [i == k]eq_sym; case: (k =P i) => [-> | _] /=; last by [].
  by rewrite eq_sym; case: eqP.
Qed.

Lemma collect_Ok (T : Type) (s : seq T) : collect [seq Ok x | x <- s] = Ok s.
Proof. by elim: s => //= x s ->. Qed.

Lemma collect_times (n : nat) (T : nat -> nat -> int) (vec : seq (seq int)) :
  all (fun e => size e == n) vec ->
  collect [seq vector_times n e T | e <- vec] = Ok [seq times n T e | e <- vec].
Proof.
move=> size_vec; rewrite -collect_Ok -map_comp; congr collect.
apply/eq_in_map => e /(allP size_vec) /eqP size_e.
by rewrite /vector_times size_e eqxx.
Qed.

(* The row i of T, applied to the point (1, b'). *)
Lemma mod_matrix_row mod (b' : seq int) (i : nat) :
  (i < (size b').+1)%N ->
  \sum_(j < (size b').+1) mod_matrix mod i j * nth 0 (1 :: b') j
  = nth 0 (1 :: mod_substitution mod b') i.
Proof.
case: i => [_ | i lti].
  rewrite (eq_bigr (fun j : 'I_(size b').+1 =>
             if (j : nat) == 0%N then 1 else 0)) => [j _|].
    by rewrite mod_matrixE; case: (j : nat) => [|j'] /=; rewrite ?mulr1 ?mul0r.
  by rewrite (@sum_pick _ 0%N (fun=> 1)).
rewrite (eq_bigr (fun j : 'I_(size b').+1 =>
           (if (j : nat) == 0%N then (mod_get mod i).2 else 0)
           + (if (j : nat) == i.+1
              then (mod_get mod i).1 * nth 0 (1 :: b') j else 0)))
  => [j _|].
  rewrite mod_matrixE; case: (j : nat) => [|j'] /=; first by rewrite mulr1 addr0.
  by rewrite add0r [j'.+1 == _]eq_sym; case: eqP => // _; rewrite mul0r.
rewrite big_split /= (@sum_pick _ 0%N (fun=> (mod_get mod i).2)) //.
rewrite (@sum_pick _ i.+1
           (fun j => (mod_get mod i).1 * nth 0 (1 :: b') j)) //=.
by rewrite (nth_map 0%N) ?size_iota // nth_iota // add0n addrC.
Qed.

Lemma evaluate_times mod (e b' : seq int) :
  size e = (size b').+1 ->
  evaluate (times (size b').+1 (mod_matrix mod) e) b'
  = evaluate e (mod_substitution mod b').
Proof.
move=> size_e; rewrite /evaluate /times size_map size_iota size_e.
rewrite (eq_bigr (fun j : 'I_(size b').+1 =>
           \sum_(i < (size b').+1)
              nth 0 e i * (mod_matrix mod i j * nth 0 (1 :: b') j)))
  => [j _|].
  rewrite (nth_map 0%N) ?size_iota // nth_iota // add0n mulr_suml.
  by apply: eq_bigr => i _; rewrite mulrA.
rewrite exchange_big /=; apply: eq_bigr => i _.
by rewrite -mulr_sumr mod_matrix_row.
Qed.



Example prepare_mod_y0 :
  prepare_mod [:: (0%N, (2, 1))] 3 [:: [:: [:: 1; -1; 0; 2]]]
  = Ok (Prepared [:: 1; 0; 0]
          [:: (0%N, [:: 2; 0; 0]); (1%N, [:: 0; 1; 0]); (2%N, [:: 0; 0; 1])]
          [:: [:: [:: 0; -2; 0; 2]]]).
Proof.
rewrite /prepare_mod /= /vector_times /= /mod_matrix /=.
by rewrite !big_ord_recl !big_ord0.
Qed.

Section SplittingFacts.

Variables (polyhedron factorization : Type).
Variable is_empty : polyhedron -> bool.
Variable ambient_dim : polyhedron -> nat.
Variable Polyhedron : seq (seq int) -> polyhedron.
Variable intersection : polyhedron -> polyhedron -> polyhedron.
Variable zero : factorization.
Variable _generating_function_of_polyhedron_ :
  polyhedron -> result (seq factorization).

Local Notation generating_function_of_polyhedron :=
  (generating_function_of_polyhedron is_empty ambient_dim Polyhedron
     intersection zero _generating_function_of_polyhedron_).

(** A splitting never gives a single factorization: for a polyhedron that is
    not empty, every call with a split other than False and with
    result_as_tuple=False raises, as does every call with split an empty
    list and result_as_tuple left out; and whenever the function returns one
    factorization of a polyhedron that is not empty, split is False and the
    helper has returned exactly that one summand. *)
Theorem splitting_never_single (P : polyhedron) (split : split_spec polyhedron)
    (result_as_tuple : option bool) :
  ~~ is_empty P ->
  (split <> SplitFalse polyhedron ->
   result_as_tuple = Some false
   \/ (result_as_tuple = None /\ split = SplitList [::]) ->
   ~~ succeeds (generating_function_of_polyhedron P split result_as_tuple))
  /\ (forall r,
        generating_function_of_polyhedron P split result_as_tuple
        = Ok (Single r) ->
        split = SplitFalse polyhedron
        /\ _generating_function_of_polyhedron_ P = Ok [:: r]).
Proof.
move=> /negbTE P_n0; rewrite /GeneratingFunction.generating_function_of_polyhedron.
rewrite P_n0; split=> [split_nF rat | r].
  have -> : (if result_as_tuple is Some t then t else truth split) = false.
    by case: rat => [-> | [-> ->]].
  case: split split_nF {rat} => [|| l] // _; case: ifP => // _.
    by case: (collect _).
  by case: (collect _).
case: split => [|| l].
- case: (_generating_function_of_polyhedron_ P) => //= result.
  by case: ifP => // _; case: result => [|r' [|r'' result]] // [->].
- by case: ifP => // _; case: (collect _) => //= result; case: ifP.
- by case: ifP => // _; case: (collect _) => //= result; case: ifP.
Qed.

End SplittingFacts.

(* A polyhedron that is not empty, split with split=True and
   result_as_tuple=False, the helper giving one summand for each piece. *)
Lemma splitting_never_single_unit :
  ~~ false
  /\ ((SplitTrue unit <> SplitFalse unit ->
       Some false = Some false
       \/ (Some false = None /\ SplitTrue unit = SplitList [::]) ->
       ~~ succeeds
            (generating_function_of_polyhedron (fun=> false) (fun=> 2%N)
               (fun=> tt) (fun _ _ => tt) tt (fun=> Ok [:: tt]) tt
               (SplitTrue unit) (Some false)))
      /\ (forall r,
            generating_function_of_polyhedron (fun=> false) (fun=> 2%N)
              (fun=> tt) (fun _ _ => tt) tt (fun=> Ok [:: tt]) tt
              (SplitTrue unit) (Some false)
            = Ok (Single r) ->
            SplitTrue unit = SplitFalse unit /\ Ok [:: tt] = Ok [:: r])).
Proof.
split; first by [].
exact: (@splitting_never_single unit unit (fun=> false) (fun=> 2%N)
          (fun=> tt) (fun _ _ => tt) tt (fun=> Ok [:: tt]) tt
          (SplitTrue unit) (Some false) isT).
Defined.

End GeneratingFunction.

(* ------------------------------------------------------------------------ *)
(* sage/modular/drinfeld_modform/ring.py                                     *)
(* ------------------------------------------------------------------------ *)

Module DrinfeldModularForms.

Section Ring.

(* Polynomials of A = Fq[T] and forms of the ring of modular forms. *)
Variables (poly form : Type).
(* a.degree(), which is -1 for the zero polynomial *)
Variable degree : poly -> int.
(* a.is_one() *)
Variable is_one : poly -> bool.

(* An element of the base ring K = Frac(A). *)
Record fraction := Fraction { numerator : poly; denominator : poly }.

(* What a caller may pass as a, and its conversion self._base_ring(a), None
   when the conversion raises a TypeError. *)
Variable X : Type.
Variable _base_ring : X -> option fraction.

(* f[i].subs(...): the coefficient of tau^i of the universal Drinfeld module
   at a, in the generators of the ring. *)
Variable universal_coefficient : poly -> int -> form.
(* self._generator_coefficient_form(i) *)
Variable _generator_coefficient_form : int -> form.

Record ring := Ring { _rank : nat }.

Definition rank (M : ring) : int := (_rank M)%:Z.

(* _coefficient_forms(a), for the numerator a *)
Definition _coefficient_forms (M : ring) (a : poly) : seq form :=
  let d := degree a in
  [seq universal_coefficient a i | i <- range 1 (d * rank M + 1)].

(* The messages of the index errors are the f-strings of the source, their
   fields left unformatted. *)
Definition coefficient_form (M : ring) (i : int) (a : option X) : result form :=
  match a with
  | None =>
      if (i < 1) || (i > rank M)
      then Raise (ValueError "index (={i}) must be >= 1 and <= rank (={rank})")
      else Ok (_generator_coefficient_form i)
  | Some a =>
      match _base_ring a with
      | None => Raise (TypeError "a should be an element of the base ring")
      | Some a =>
          if ~~ is_one (denominator a)
          then Raise (ValueError "a should be in the ring of regular functions")
          else
            let a := numerator a in
            if (i < 1) || (i > degree a * rank M)
            then Raise (ValueError
              "index (={i}) must be >= 1 and <= deg(a)*rank (={deg(a)*rank})")
            else
              let coeff_forms := _coefficient_forms M a in
              getitem coeff_forms (i - 1)
      end
  end.

Definition coefficient_forms (M : ring) (a : option X) : result (seq form) :=
  match a with
  | None =>
      Ok [seq _generator_coefficient_form i | i <- range 1 (rank M + 1)]
  | Some a =>
      match _base_ring a with
      | None =>
          Raise (TypeError "the input should be an element of the base ring")
      | Some a =>
          if ~~ is_one (denominator a)
          then Raise (ValueError
                 "the input should be in the ring of regular functions")
          else Ok (_coefficient_forms M (numerator a))
      end
  end.

End Ring.

(* Polynomials over F_2 as lists of bits from the constant coefficient on, a
   fraction as a pair of them; the coefficient forms stand for themselves. *)
Definition degree2 (p : seq bool) : int := (size p)%:Z - 1.
Definition is_one2 (p : seq bool) : bool := p == [:: true].
Definition fraction2 (x : seq bool * seq bool) :
    option (fraction (seq bool)) :=
  Some (Fraction x.1 x.2).
Definition universal2 (a : seq bool) (i : int) : seq bool * int := (a, i).
Definition generator2 (i : int) : seq bool * int := ([:: false; true], i).
Definition coefficient_form2 :=
  coefficient_form degree2 is_one2 fraction2 universal2 generator2.
Definition coefficient_forms2 :=
  coefficient_forms degree2 is_one2 fraction2 universal2 generator2.

(* T^2 and 1/T *)
Definition T2 : seq bool * seq bool := ([:: false; false; true], [:: true]).
Definition invT : seq bool * seq bool := ([:: true], [:: false; true]).

Section Weights.

(* q = base_ring.base_ring().cardinality(), and the argument has_type *)
Variables (q : nat) (has_type : bool).

(* __init__: the weights degs of the generators; the division is that of
   Sage integers, with a rational value. *)
Definition degs (M : ring) : result (seq rat) :=
  let rank := _rank M in
  if has_type then
    let degs := [seq (q ^ i)%N%:Q - 1 | i <- iota 1 (rank - 1)] in
    if (q%:Q - 1 == 0)
    then Raise (OtherError "ZeroDivisionError: rational division by zero")
    else Ok (degs ++ [:: ((q ^ rank)%N%:Q - 1) / (q%:Q - 1)])
  else Ok [seq (q ^ i)%N%:Q - 1 | i <- iota 1 rank].

(* A power of a generator of the ring: gen(n) ** k. *)
Record generator_power := GenPow { index : nat; power : nat }.

(* gen(n), for an integer n; the polynomial ring has the generators
   0, ..., rank - 1. *)
Definition gen (M : ring) (n : int) : result generator_power :=
  if (0 <= n) && (n < rank M) then Ok (GenPow `|n| 1)
  else Raise (ValueError "Generator not defined.").

Definition _generator_coefficient_form (M : ring) (i : int) :
    result generator_power :=
  if has_type && (i == rank M)
  then bind (gen M (i - 1)) (fun g => Ok (GenPow (index g) (power g * (q - 1))))
  else gen M (i - 1).

(* The weight of a power of a generator, in the term order wdeglex of the
   weights degs. *)
Definition weight (M : ring) (f : generator_power) : result rat :=
  bind (degs M) (fun d => Ok ((power f)%:Q * nth 0 d (index f))).

End Weights.

Section RingFacts.

Variables (poly form : Type) (degree : poly -> int) (is_one : poly -> bool).
Variables (X : Type) (_base_ring : X -> option (fraction poly)).
Variable universal_coefficient : poly -> int -> form.
Variable _generator_coefficient_form : int -> form.

Lemma getitem_range (T : Type) (F : int -> T) (n i : int) :
  1 <= i <= n -> getitem [seq F k | k <- range 1 (n + 1)] (i - 1) = Ok (F i).
Proof.
case/andP=> i_ge1 i_len; rewrite /getitem /range addrK.
have n_ge0 : 0 <= n by rewrite (le_trans _ i_len) // (le_trans _ i_ge1).
case: n n_ge0 i_len => // n _ i_len; rewrite !size_map size_iota.
have -> : (i - 1 < 0) = false by apply/negbTE; rewrite -leNgt subr_ge0.
rewrite subr_ge0 i_ge1 /= ltrBlDr.
case: i i_ge1 i_len => [[|k]|] // _; rewrite lez_nat => lt_kn.
rewrite ltzD1 lez_nat lt_kn intS addrAC subrr add0r absz_nat.
by rewrite -!map_drop drop_iota add0n -(subnSK lt_kn).
Qed.


Lemma size_range1 (n : int) :
  ((size (range 1 (n + 1)))%:Z = if 0 <= n then n else 0).
Proof. by rewrite /range addrK; case: n => n //=; rewrite size_map size_iota. Qed.

(** coefficient_form(i, a) is the entry i - 1 of coefficient_forms(a) exactly
    for the indices i from 1 to the length of that list; for every other
    index it raises a ValueError, where the list itself would count from its
    end or raise an IndexError. *)
Theorem coefficient_form_of_forms (M : ring) (a : option X) (l : seq form)
    (i : int) :
  coefficient_forms degree is_one _base_ring universal_coefficient
    _generator_coefficient_form M a = Ok l ->
  (1 <= i <= (size l)%:Z ->
   exists2 f,
     coefficient_form degree is_one _base_ring universal_coefficient
       _generator_coefficient_form M i a = Ok f
     & getitem l (i - 1) = Ok f)
  /\ (~~ (1 <= i <= (size l)%:Z) ->
      exists msg,
        coefficient_form degree is_one _base_ring universal_coefficient
          _generator_coefficient_form M i a = Raise (ValueError msg)).
Proof.
rewrite /coefficient_forms /coefficient_form.
case: a => [x|]; last first.
  case=> <-; rewrite size_map size_range1 /rank /= !ltNge -negb_and.
  split=> [i_ok | ->]; last by eexists.
  by rewrite i_ok getitem_range //; eexists.
case: (_base_ring x) => // a; case: ifP => // _ [<-].
rewrite /_coefficient_forms size_map size_range1.
set n := degree (numerator a) * rank M.
rewrite !ltNge -negb_and; case: (leP 0 n) => [n_ge0 | n_lt0].
  split=> [i_ok | ->]; last by eexists.
  by rewrite i_ok getitem_range //; eexists.
have i_out : (1 <= i <= n) = false.
  apply/negbTE; rewrite negb_and -!ltNge; case: (ltP i 1) => //= i1.
  exact: lt_le_trans (lt_trans n_lt0 ltr01) i1.
split=> [/andP[i1 i0] | _]; last by rewrite i_out; eexists.
by have := le_trans i1 i0.
Qed.

End RingFacts.

(* The geometric sum: (q - 1) (1 + q + ... + q^(r-1)) = q^r - 1. *)
Lemma geometric_sum (q r : nat) :
  (q%:Q - 1) * (\sum_(k < r) q ^ k)%N%:Q = (q ^ r)%N%:Q - 1.
Proof.
rewrite -!pmulrn.
elim: r => [|r IHr]; first by rewrite big_ord0 mulr0 expn0 subrr.
by rewrite big_ord_recr /= natrD mulrDr IHr expnS !natrM; ring.
Qed.

(** The generator coefficient form g_i has weight q^i - 1 for every i from 1
    to the rank, with has_type or without: with has_type the last generator
    has the weight (q^r - 1)/(q - 1), which is the integer
    1 + q + ... + q^(r-1), and g_r is its power q - 1. *)
Theorem generator_coefficient_form_weight (q : nat) (has_type : bool)
    (M : ring) (i : int) :
  (1 < q)%N -> 1 <= i <= rank M ->
  exists2 g, _generator_coefficient_form q has_type M i = Ok g
    & weight q has_type M g = Ok ((q ^ `|i|)%N%:Q - 1)
      /\ exists2 d, degs q has_type M = Ok d
           & size d = _rank M /\ all (fun w => w \is a Num.nat) d.
Proof.
move=> q_gt1 /andP[i_ge1]; rewrite /rank.
case: i i_ge1 => [[|i]|] // _; rewrite lez_nat => lti.
have q1 : q%:Q - 1 != 0 by rewrite subr_eq0 (pnatr_eq1 _ q) neq_ltn q_gt1 orbT.
have q_gt0 : (0 < q)%N by apply: ltnW.
have natP k : (q ^ k)%N%:Q - 1 \is a Num.nat.
  by rewrite -(@natrB _ _ 1) ?expn_gt0 ?q_gt0 // rpred_nat.
have last_nat : ((q ^ _rank M)%N%:Q - 1) / (q%:Q - 1) \is a Num.nat.
  by rewrite -geometric_sum mulrC mulKf // rpred_nat.
have genE : gen M (i.+1%:Z - 1) = Ok (GenPow i 1).
  by rewrite /gen /rank intS addrC addKr /= ltz_nat lti.
have degsP : exists2 d, degs q has_type M = Ok d
    & size d = _rank M /\ all (fun w => w \is a Num.nat) d.
  rewrite /degs; case: has_type; last first.
    eexists; first by [].
    rewrite size_map size_iota all_map; split=> //.
    by apply/allP => k _; apply: natP.
  rewrite (negbTE q1); eexists; first by [].
  rewrite size_cat size_map size_iota /= addn1 subn1 prednK ?(leq_trans _ lti) //.
  split=> //; rewrite all_cat all_map /= last_nat !andbT.
  by apply/allP => k _; apply: natP.
exists (if has_type && (i.+1 == _rank M)
        then GenPow i (1 * (q - 1)) else GenPow i 1).
  rewrite /_generator_coefficient_form genE /rank eqz_nat.
  by case: ifP.
split; last exact: degsP.
rewrite /weight /degs; case: has_type {degsP} => /=; last first.
  by rewrite (nth_map 0%N) ?size_iota // nth_iota // add1n mul1r.
rewrite (negbTE q1) /=; case: eqP => [eq_i | /eqP ni] /=.
  rewrite nth_cat size_map size_iota -eq_i subSS subn0 ltnn subnn /= mul1n.
  congr (Ok _); rewrite -[(q - 1)%N%:~R]pmulrn natrB // pmulrn.
  by rewrite mulrC divfK.
have lti' : (i < _rank M - 1)%N.
  by rewrite ltn_subRL add1n ltn_neqAle ni lti.
rewrite nth_cat size_map size_iota lti' (nth_map 0%N) ?size_iota //.
by rewrite nth_iota // add1n mul1r.
Qed.

(* coefficient_form(3, T^2), coefficient_form(9, T^2) and
   coefficient_form(1, 1/T) in rank 2 *)
Example coefficient_form_T2 :
  coefficient_form2 (Ring 2) 3 (Some T2) = Ok ([:: false; false; true], 3).
Proof. by []. Qed.

Example coefficient_form_9_T2 :
  coefficient_form2 (Ring 2) 9 (Some T2)
  = Raise (ValueError
      "index (={i}) must be >= 1 and <= deg(a)*rank (={deg(a)*rank})").
Proof. by []. Qed.

Example coefficient_form_invT :
  coefficient_form2 (Ring 2) 1 (Some invT)
  = Raise (ValueError "a should be in the ring of regular functions").
Proof. by []. Qed.


(* coefficient_forms(T^2) in rank 2 has four entries, and 3 is an index of
   it. *)
Lemma coefficient_form_of_forms_T2 :
  coefficient_forms2 (Ring 2) (Some T2)
  = Ok [seq universal2 T2.1 i | i <- [:: 1; 2; 3; 4]]
  /\ ((1 <= (3 : int)
         <= (size [seq universal2 T2.1 i | i <- [:: 1; 2; 3; 4]])%:Z ->
       exists2 f, coefficient_form2 (Ring 2) 3 (Some T2) = Ok f
         & getitem [seq universal2 T2.1 i | i <- [:: 1; 2; 3; 4]] (3 - 1)
           = Ok f)
      /\ (~~ (1 <= (3 : int)
                <= (size [seq universal2 T2.1 i | i <- [:: 1; 2; 3; 4]])%:Z) ->
          exists msg,
            coefficient_form2 (Ring 2) 3 (Some T2) = Raise (ValueError msg))).
Proof.
split; first by [].
exact: (@coefficient_form_of_forms _ _ degree2 is_one2 _ fraction2 universal2
          generator2 (Ring 2) (Some T2) _ 3 (erefl _)).
Defined.

(* Over F_2 in rank 2 with has_type, the form g_2 is h^(q-1). *)
Lemma generator_coefficient_form_weight_h2 :
  ((1 < 2)%N /\ 1 <= (2 : int) <= rank (Ring 2))
  /\ exists2 g, _generator_coefficient_form 2 true (Ring 2) 2 = Ok g
       & weight 2 true (Ring 2) g = Ok ((2 ^ `|(2 : int)|)%N%:Q - 1)
         /\ exists2 d, degs 2 true (Ring 2) = Ok d
              & size d = _rank (Ring 2) /\ all (fun w => w \is a Num.nat) d.
Proof.
split; first by [].
exact: (@generator_coefficient_form_weight 2 true (Ring 2) 2 isT isT).
Defined.

End DrinfeldModularForms.

(* ------------------------------------------------------------------------ *)
(* sage/rings/function_field/drinfeld_modules/finite_drinfeld_module.py      *)
(* ------------------------------------------------------------------------ *)

Module FiniteDrinfeldModule.

Section Finite.

(* The algebra the methods compute with: the coefficients of Ore polynomials
   (the base ring), polynomials of Fq[X] and of Fq[X][T]. *)
Variables (K poly bipoly : Type).
Variables (zero one : K).

(* An Ore polynomial in t, by its coefficients from the constant one on. *)
Definition ore_polynomial := seq K.

Record drinfeld_module := DrinfeldModule {
  _gen : ore_polynomial;             (* the image of X *)
  degree_over_Fq : nat;              (* of the base ring over Fq *)
  _frobenius_norm : option poly;
  _frobenius_trace : option poly
}.

(* DrinfeldModuleMorphism *)
Record morphism := Morphism {
  domain : drinfeld_module;
  codomain : drinfeld_module;
  ore_polynomial_of : ore_polynomial
}.

(* ((-1)**n) * (self.characteristic()**m) / norm, the formula of Gekeler *)
Variable norm_formula : drinfeld_module -> poly.
(* self.invert(t**n + (self(B) // t**n)) *)
Variable trace_formula : drinfeld_module -> poly -> poly.
(* S([B, -A, 1]) *)
Variable charpoly_of : poly -> poly -> bipoly.
(* self.characteristic().divides(A) *)
Variable characteristic_divides : drinfeld_module -> poly -> bool.

(* rank(): the degree of the image of X *)
Definition rank (phi : drinfeld_module) : nat := (size (_gen phi)).-1.

Definition rank_error {T : Type} : result T :=
  Raise (NotImplementedError "rank must be two").

(* Modelled from the spec: DrinfeldModule._check_rank_two, of the class this
   one inherits, is not in the sources; the precondition is "rank must be
   two", surfaced as an immediate NotImplementedError. *)
Definition _check_rank_two (phi : drinfeld_module) : result unit :=
  if rank phi != 2%N then rank_error else Ok tt.

(* t**deg *)
Definition ore_monomial (deg : nat) : ore_polynomial :=
  rcons (nseq deg zero) one.

(* A method returns its value and the module with its caches as the call left
   them, or raises. *)
Definition frobenius_endomorphism (phi : drinfeld_module) :
    result (morphism * drinfeld_module) :=
  let deg := degree_over_Fq phi in
  Ok (Morphism phi phi (ore_monomial deg), phi).

Definition frobenius_norm (phi : drinfeld_module) :
    result (poly * drinfeld_module) :=
  bind (_check_rank_two phi) (fun _ =>
    match _frobenius_norm phi with
    | Some B => Ok (B, phi)
    | None =>
        let B := norm_formula phi in
        Ok (B, DrinfeldModule (_gen phi) (degree_over_Fq phi) (Some B)
                 (_frobenius_trace phi))
    end).

Definition frobenius_trace (phi : drinfeld_module) :
    result (poly * drinfeld_module) :=
  bind (_check_rank_two phi) (fun _ =>
    match _frobenius_trace phi with
    | Some A => Ok (A, phi)
    | None =>
        bind (frobenius_norm phi) (fun Bphi =>
          let: (B, phi1) := Bphi in
          let A := trace_formula phi1 B in
          Ok (A, DrinfeldModule (_gen phi1) (degree_over_Fq phi1)
                   (_frobenius_norm phi1) (Some A)))
    end).

Definition frobenius_charpoly (phi : drinfeld_module) :
    result (bipoly * drinfeld_module) :=
  bind (_check_rank_two phi) (fun _ =>
    bind (frobenius_norm phi) (fun Bphi =>
      let: (B, phi1) := Bphi in
      bind (frobenius_trace phi1) (fun Aphi =>
        let: (A, phi2) := Aphi in
        Ok (charpoly_of B A, phi2)))).

Definition is_supersingular (phi : drinfeld_module) :
    result (bool * drinfeld_module) :=
  bind (_check_rank_two phi) (fun _ =>
    bind (frobenius_trace phi) (fun Aphi =>
      let: (A, phi1) := Aphi in
      Ok (characteristic_divides phi1 A, phi1))).

Definition is_ordinary (phi : drinfeld_module) :
    result (bool * drinfeld_module) :=
  bind (_check_rank_two phi) (fun _ =>
    bind (is_supersingular phi) (fun sphi =>
      let: (s, phi1) := sphi in Ok (~~ s, phi1))).

End Finite.

(* The module of rank three with gen = 1 + t^3, on a base ring of degree two
   over Fq, and the module of rank two with gen = 1 + t^2. *)
Definition rank_three : drinfeld_module nat unit :=
  DrinfeldModule [:: 1; 0; 0; 1]%N 2 None None.
Definition rank_two : drinfeld_module nat unit :=
  DrinfeldModule [:: 1; 0; 1]%N 2 None None.

Section FiniteFacts.

Variables (K poly bipoly : Type) (zero one : K).
Variable norm_formula : drinfeld_module K poly -> poly.
Variable trace_formula : drinfeld_module K poly -> poly -> poly.
Variable charpoly_of : poly -> poly -> bipoly.
Variable characteristic_divides : drinfeld_module K poly -> poly -> bool.

Local Notation frobenius_endomorphism := (frobenius_endomorphism zero one).
Local Notation frobenius_norm := (frobenius_norm norm_formula).
Local Notation frobenius_trace :=
  (frobenius_trace norm_formula trace_formula).
Local Notation frobenius_charpoly :=
  (frobenius_charpoly norm_formula trace_formula charpoly_of).
Local Notation is_supersingular :=
  (is_supersingular norm_formula trace_formula characteristic_divides).
Local Notation is_ordinary :=
  (is_ordinary norm_formula trace_formula characteristic_divides).

Lemma rank_frobenius_norm phi B phi1 :
  frobenius_norm phi = Ok (B, phi1) -> rank phi1 = rank phi.
Proof.
rewrite /FiniteDrinfeldModule.frobenius_norm.
case: (_check_rank_two phi) => //= _.
by case: (_frobenius_norm phi) => [B'|] [_ <-].
Qed.


(** After frobenius_charpoly() on a module of rank two both caches are
    filled, with the norm B and the trace A of the polynomial returned, and
    the module is otherwise unchanged; from then on frobenius_norm,
    frobenius_trace, frobenius_charpoly, is_supersingular and is_ordinary
    recompute nothing: they return B, A, the same polynomial and the answers
    for A, and leave the module as it is. *)
Theorem frobenius_caches (phi : drinfeld_module K poly) :
  rank phi = 2%N ->
  exists B A phi',
    [/\ frobenius_charpoly phi = Ok (charpoly_of B A, phi'),
        phi' = DrinfeldModule (_gen phi) (degree_over_Fq phi) (Some B) (Some A),
        frobenius_norm phi' = Ok (B, phi')
        /\ frobenius_trace phi' = Ok (A, phi'),
        frobenius_charpoly phi' = Ok (charpoly_of B A, phi')
      & is_supersingular phi' = Ok (characteristic_divides phi' A, phi')
        /\ is_ordinary phi' = Ok (~~ characteristic_divides phi' A, phi')].
Proof.
case: phi => gen deg cacheB cacheA rk.
have chk cB cA : _check_rank_two (DrinfeldModule gen deg cB cA) = Ok tt.
  by move: rk; rewrite /_check_rank_two /rank /= => ->.
pose B := if cacheB is Some B0 then B0
          else norm_formula (DrinfeldModule gen deg None cacheA).
pose A := if cacheA is Some A0 then A0
          else trace_formula (DrinfeldModule gen deg (Some B) None) B.
exists B, A, (DrinfeldModule gen deg (Some B) (Some A)).
rewrite /FiniteDrinfeldModule.frobenius_charpoly.
rewrite /FiniteDrinfeldModule.is_ordinary.
rewrite /FiniteDrinfeldModule.is_supersingular.
rewrite /FiniteDrinfeldModule.frobenius_trace.
rewrite /FiniteDrinfeldModule.frobenius_norm !chk /=.
by case: cacheB cacheA @B @A {rk} => [B|] [A|] /=; split; rewrite ?chk /= ?chk.
Qed.

End FiniteFacts.


(* The caches of a module of rank two after frobenius_trace(). *)
Example frobenius_trace_rank_two :
  frobenius_trace (fun=> tt) (fun _ _ => tt) rank_two
  = Ok (tt, DrinfeldModule [:: 1; 0; 1]%N 2 (Some tt) (Some tt)).
Proof. by []. Qed.

(* The module of rank two, with fresh caches. *)
Lemma frobenius_caches_rank_two :
  rank rank_two = 2%N
  /\ exists B A phi',
       [/\ frobenius_charpoly (fun=> tt) (fun _ _ => tt) (fun _ _ => tt)
             rank_two = Ok (tt, phi'),
           phi' = DrinfeldModule (_gen rank_two) (degree_over_Fq rank_two)
                    (Some B) (Some A),
           frobenius_norm (fun=> tt) phi' = Ok (B, phi')
           /\ frobenius_trace (fun=> tt) (fun _ _ => tt) phi' = Ok (A, phi'),
           frobenius_charpoly (fun=> tt) (fun _ _ => tt) (fun _ _ => tt) phi'
           = Ok (tt, phi')
         & is_supersingular (fun=> tt) (fun _ _ => tt) (fun _ _ => true) phi'
           = Ok (true, phi')
           /\ is_ordinary (fun=> tt) (fun _ _ => tt) (fun _ _ => true) phi'
              = Ok (~~ true, phi')].
Proof.
split; first by [].
exact: (@frobenius_caches nat unit unit (fun=> tt) (fun _ _ => tt)
          (fun _ _ => tt) (fun _ _ => true) rank_two (erefl _)).
Defined.

End FiniteDrinfeldModule.

(* ------------------------------------------------------------------------ *)
(* sage/rings/function_field/drinfeld_modules/homset.py                      *)
(* ------------------------------------------------------------------------ *)

Module DrinfeldModuleHomset.

Section Homset.

(* What is tested for membership, and the morphisms of the homset. *)
Variables (X morphism : Type).

(* DrinfeldModuleMorphism(self, x), which raises when x defines no morphism
   of the homset. *)
Variable DrinfeldModuleMorphism : X -> result morphism.

Definition _element_constructor_ (x : X) : result morphism :=
  DrinfeldModuleMorphism x.

(* self(x): the conversion of x into the homset, by its element constructor. *)
Definition call (x : X) : result morphism := _element_constructor_ x.

(* except (AttributeError, ValueError, TypeError) *)
Definition caught (e : exn) : bool :=
  match e with
  | AttributeError _ | ValueError _ | TypeError _ => true
  | _ => false
  end.

Definition __contains__ (x : X) : result bool :=
  match call x with
  | Ok _ => Ok true
  | Raise e => if caught e then Ok false else Raise e
  end.

(** C10, as the code has it: x in H is True exactly when H(x) constructs a
    morphism, it is False when the construction raises an AttributeError, a
    ValueError or a TypeError, none of which it ever propagates; any other
    exception of the construction is propagated unchanged. *)
Theorem contains_spec (x : X) :
  [/\ __contains__ x = Ok true <-> exists m, call x = Ok m,
      forall e, call x = Raise e -> caught e -> __contains__ x = Ok false,
      forall e, call x = Raise e -> ~~ caught e -> __contains__ x = Raise e
    & forall e, __contains__ x = Raise e -> ~~ caught e].
Proof.
rewrite /__contains__; case: (call x) => [m|e].
  by split=> //; split=> // _; exists m.
case ce: (caught e); split=> //.
- by split=> // -[].
- by move=> e' [<-]; rewrite ce.
- by split=> // -[].
- by move=> e' [<-]; rewrite ce.
- by move=> e' [<-].
- by move=> e' [<-]; rewrite ce.
Qed.

End Homset.

(** C10 as stated fails: when the construction raises an exception that is
    none of the three, here a NotImplementedError, x in H returns no boolean
    and propagates it. *)
Lemma contains_propagates :
  let construct := fun _ : unit =>
    @Raise unit (NotImplementedError "conversion not implemented") in
  __contains__ construct tt
    = Raise (NotImplementedError "conversion not implemented")
  /\ ~ exists b, __contains__ construct tt = Ok b.
Proof. by split=> // -[]. Qed.

End DrinfeldModuleHomset.
